(** * jotai-history-global: diff/patch engine and global history stack

    A shallow embedding of [src/diffUtils.ts], [src/historyManager.ts],
    [src/atomWithHistory.ts] and [src/useHistory.ts], with the properties
    of the written specification stated and settled against it. *)

From Stdlib Require Import ZArith QArith DecimalString Sorted.
From stdpp Require Import base option list strings gmap.

Local Open Scope string_scope.
Local Open Scope list_scope.
Local Open Scope nat_scope.
#[local] Set Warnings "-register-all".

(** ** JavaScript values

    Primitives, arrays, plain objects, and what a plain object inherits.
    An array or an object is a heap allocation; [===] on two of them
    compares the allocations, not the contents, so every composite node
    carries the reference [r] it lives at.  Numbers are integers plus
    [NaN] (the one number that is not [===] to itself); values are only
    ever compared, never computed with.  An object is the list of its own
    properties in insertion order (JavaScript lists integer-like names
    first; nothing below depends on the order, and structural equality
    does not compare it).

    Every object is a plain one: its prototype is [Object.prototype], so
    [key in obj] and [obj[key]] also see the members of
    [Object.prototype].  These are built-in functions ([VFun], named by
    the member), except the accessor [__proto__], which reads as
    [Object.prototype] itself ([VObjectPrototype], an object without
    enumerable properties). *)
Module Js.

Definition ref := nat.

Inductive value : Type :=
| VUndefined
| VNull
| VBool (b : bool)
| VNum (n : Z)
| VNaN
| VStr (s : string)
| VArr (r : ref) (elems : list value)
| VObj (r : ref) (props : list (string * value))
| VFun (name : string)
| VObjectPrototype.

(** [a === b] *)
Definition strict_eq (a b : value) : bool :=
  match a, b with
  | VUndefined, VUndefined => true
  | VNull, VNull => true
  | VBool x, VBool y => bool_decide (x = y)
  | VNum x, VNum y => bool_decide (x = y)
  | VStr x, VStr y => bool_decide (x = y)
  | VArr r _, VArr r' _ => bool_decide (r = r')
  | VObj r _, VObj r' _ => bool_decide (r = r')
  | VFun x, VFun y => bool_decide (x = y)
  | VObjectPrototype, VObjectPrototype => true
  | _, _ => false
  end.

(** [v !== undefined] *)
Definition is_defined (v : value) : bool :=
  match v with VUndefined => false | _ => true end.

(** [Array.isArray(v)] *)
Definition isArray (v : value) : bool :=
  match v with VArr _ _ => true | _ => false end.

(** [v !== null && typeof v === 'object'] *)
Definition is_object (v : value) : bool :=
  match v with VArr _ _ | VObj _ _ | VObjectPrototype => true | _ => false end.

(** *** Records: the own properties of an object, keyed by string *)

Fixpoint obj_get {A} (key : string) (o : list (string * A)) : option A :=
  match o with
  | [] => None
  | (k, x) :: o' => if decide (k = key) then Some x else obj_get key o'
  end.

(** [Object.hasOwn(o, key)] *)
Definition obj_has {A} (key : string) (o : list (string * A)) : bool :=
  match obj_get key o with Some _ => true | None => false end.

(** [o[key] = v]: an existing property keeps its place, a new one goes last *)
Fixpoint obj_set {A} (key : string) (v : A) (o : list (string * A))
  : list (string * A) :=
  match o with
  | [] => [(key, v)]
  | (k, x) :: o' =>
      if decide (k = key) then (k, v) :: o' else (k, x) :: obj_set key v o'
  end.

(** [delete o[key]] *)
Fixpoint obj_delete {A} (key : string) (o : list (string * A))
  : list (string * A) :=
  match o with
  | [] => []
  | (k, x) :: o' =>
      if decide (k = key) then obj_delete key o' else (k, x) :: obj_delete key o'
  end.

(** [Object.keys(o)], the names [for (key in o)] runs through, and the
    names of [Object.entries(o)]: own properties only, since the members
    of [Object.prototype] are not enumerable. *)
Definition obj_keys {A} (o : list (string * A)) : list string := map fst o.

(** *** What a plain object inherits *)

Definition proto_accessor : string := "__proto__".

(** The members of [Object.prototype]. *)
Definition Object_prototype : list string :=
  ["constructor"; "hasOwnProperty"; "isPrototypeOf"; "propertyIsEnumerable";
   "toLocaleString"; "toString"; "valueOf";
   "__defineGetter__"; "__defineSetter__"; "__lookupGetter__";
   "__lookupSetter__"; proto_accessor].

Definition inherited (key : string) : bool :=
  bool_decide (key ∈ Object_prototype).

(** [key in o], for the properties [o] of a plain object *)
Definition has_property (key : string) (o : list (string * value)) : bool :=
  obj_has key o || inherited key.

(** [o[key]], for the properties [o] of a plain object *)
Definition get_property (key : string) (o : list (string * value)) : value :=
  match obj_get key o with
  | Some x => x
  | None =>
      if decide (key = proto_accessor) then VObjectPrototype
      else if inherited key then VFun key
      else VUndefined
  end.

(** The property name of an array index. *)
Definition index_key (i : nat) : string :=
  NilZero.string_of_uint (Nat.to_uint i).

(** The own enumerable properties of an array: ["0"], ["1"], ... *)
Definition array_props (elems : list value) : list (string * value) :=
  imap (fun i x => (index_key i, x)) elems.

(** The properties [{...v}] copies, for a non-null [typeof v === 'object']. *)
Definition props_of (v : value) : option (list (string * value)) :=
  match v with
  | VObj _ props => Some props
  | VArr _ elems => Some (array_props elems)
  | VObjectPrototype => Some []
  | _ => None
  end.

(** The own enumerable properties of an object that is not an array. *)
Definition own_props (v : value) : option (list (string * value)) :=
  match v with
  | VObj _ props => Some props
  | VObjectPrototype => Some []
  | _ => None
  end.

(** *** Arrays *)

(** [arr.splice(i, 1)] *)
Definition splice_remove {A} (i : nat) (arr : list A) : list A :=
  take i arr ++ drop (S i) arr.

(** [arr.splice(i, 0, x)]: a start beyond the end is clamped to the end *)
Definition splice_insert {A} (i : nat) (x : A) (arr : list A) : list A :=
  take i arr ++ x :: drop i arr.

(** [arr[i] = x]: a write past the end grows the array; the holes it
    leaves read as [undefined]. *)
Definition array_set (i : nat) (x : value) (arr : list value) : list value :=
  if decide (i < length arr) then <[i:=x]> arr
  else arr ++ replicate (i - length arr) VUndefined ++ [x].

(** *** Structural equality of two values

    The contents agree: same primitive, arrays equal element by element,
    objects with the same keys and equal values under each key.
    References and the order of an object's properties are not compared. *)
Fixpoint deepEq (a b : value) {struct a} : bool :=
  match a, b with
  | VUndefined, VUndefined => true
  | VNull, VNull => true
  | VNaN, VNaN => true
  | VBool x, VBool y => bool_decide (x = y)
  | VNum x, VNum y => bool_decide (x = y)
  | VStr x, VStr y => bool_decide (x = y)
  | VArr _ xs, VArr _ ys =>
      (fix elems (xs ys : list value) {struct xs} : bool :=
         match xs, ys with
         | [], [] => true
         | x :: xs', y :: ys' => deepEq x y && elems xs' ys'
         | _, _ => false
         end) xs ys
  | VObj _ ps, VObj _ qs =>
      forallb (fun kx : string * value =>
                 match obj_get kx.1 qs with
                 | Some y => deepEq kx.2 y
                 | None => false
                 end) ps
      && forallb (fun ky : string * value => obj_has ky.1 ps) qs
  | VFun x, VFun y => bool_decide (x = y)
  | VObjectPrototype, VObjectPrototype => true
  | _, _ => false
  end.

(** The same property on both sides: absent on both, or present on both
    with structurally equal values. *)
Definition same_prop (a b : option value) : Prop :=
  match a, b with
  | Some x, Some y => deepEq x y = true
  | None, None => True
  | _, _ => False
  end.

(** Every object of [v] has pairwise distinct property names. *)
Fixpoint wf (v : value) : bool :=
  match v with
  | VArr _ xs => forallb wf xs
  | VObj _ ps =>
      bool_decide (NoDup (obj_keys ps)) && forallb (fun kx => wf kx.2) ps
  | _ => true
  end.

(** [v] and everything reachable from it. *)
Fixpoint subvalues (v : value) : list value :=
  v :: match v with
       | VArr _ xs => flat_map subvalues xs
       | VObj _ ps => flat_map (fun kx => subvalues kx.2) ps
       | _ => []
       end.

(** One heap holds [a] and [b]: two nodes at the same reference are the
    same allocation, so they have the same contents. *)
Definition coherent (a b : value) : bool :=
  forallb (fun x =>
    forallb (fun y => implb (strict_eq x y) (deepEq x y)) (subvalues b))
    (subvalues a).

(** *** Numbers as a history limit takes them

    [historyLimit] is tested for truth and compared with a length, so
    here a number is a rational, an infinity or [NaN]. *)
Inductive number : Type :=
| Finite (q : Q)
| PlusInfinity
| MinusInfinity
| NotANumber.

Definition number_of_nat (n : nat) : number := Finite (inject_Z (Z.of_nat n)).

(** [n] as a condition: [0] and [NaN] are false *)
Definition truthy (n : number) : bool :=
  match n with
  | Finite q => negb (Qeq_bool q 0)
  | PlusInfinity | MinusInfinity => true
  | NotANumber => false
  end.

(** [len > n], for the length of an array *)
Definition exceeds (len : nat) (n : number) : bool :=
  match n with
  | Finite q => negb (Qle_bool (inject_Z (Z.of_nat len)) q)
  | PlusInfinity => false
  | MinusInfinity => true
  | NotANumber => false
  end.

End Js.

(** ** The JavaScript runtime the library runs on

    The two effects of the diff engine: allocating the arrays and objects
    it returns, and writing to the console. *)
Module Runtime.
Import Js.

Inductive log : Type :=
| Warn (message : string)
| Error (message : string).

Record t : Type := mk {
  next_ref : ref;          (* the next free reference *)
  console : list log       (* what was written so far, oldest first *)
}.

(** Allocate one array or object. *)
Definition alloc (rt : t) : ref * t :=
  (next_ref rt, mk (S (next_ref rt)) (console rt)).

Definition console_warn (message : string) (rt : t) : t :=
  mk (next_ref rt) (console rt ++ [Warn message]).

Definition console_error (message : string) (rt : t) : t :=
  mk (next_ref rt) (console rt ++ [Error message]).

End Runtime.

(** ** [src/diffUtils.ts] *)
Module DiffUtils.
Import Js.

(** One record of [ArrayDiff.items].  An absent [value] reads as
    [undefined], an absent flag as false. *)
Record ArrayItem : Type := mkItem {
  index : nat;
  value_of : value;
  removed : bool;
  added : bool
}.

(** [Diff = ObjectDiff | ArrayDiff | ValueDiff].  The code reads the
    records [changed] and [added] through [Object.entries] and
    [Object.keys], so they are the lists of their own properties.

    A diff that was written by hand is taken not to name [__proto__] in
    [changed], [added] or [deleted]: assigning under that name runs the
    setter a plain object inherits, which replaces the prototype of the
    object assigned to and adds no property.  [createObjectDiff] never
    puts the name into a diff (see [changed_props]). *)
Inductive Diff : Type :=
| ValueDiff (before after : value)
| ArrayDiff (items : list ArrayItem)
| ObjectDiff (changed : list (string * Diff))
             (added_props : list (string * value))
             (deleted : list string).

(** [arr[i]] *)
Definition array_get (i : nat) (arr : list value) : value :=
  default VUndefined (arr !! i).

(** The body of the loop of [createArrayDiff] at index [i]. *)
Definition array_item_at (oldArray newArray : list value) (i : nat)
  : option ArrayItem :=
  if decide (length oldArray ≤ i)%nat then
    Some (mkItem i (array_get i newArray) false true)
  else if decide (length newArray ≤ i)%nat then
    Some (mkItem i (array_get i oldArray) true false)
  else if negb (strict_eq (array_get i oldArray) (array_get i newArray)) then
    Some (mkItem i (array_get i newArray) false false)
  else None.

Definition createArrayDiff (oldArray newArray : list value) : option Diff :=
  let maxLen := length oldArray `max` length newArray in
  let items := omap (array_item_at oldArray newArray) (seq 0 maxLen) in
  let hasChanges := negb (bool_decide (items = [])) in
  if hasChanges then Some (ArrayDiff items) else None.

(** The first loop of [createObjectDiff] fills [changed] and [deleted],
    the second [added].  The property names of an object are distinct, so
    each loop assigns a name at most once and the records come out in
    iteration order.  The recursive call on a property present on both
    sides is a parameter.

    [key in newObj] and [newObj[key]] see what [newObj] inherits: a
    property of the old object named like a member of [Object.prototype]
    is never deleted, and is diffed against that member when the new
    object has no property of its own under the name.  [changed] is a
    plain object too: [changed[key] = childDiff] under the name
    [__proto__] runs the inherited setter, which replaces the prototype
    of [changed] and adds no property, so [Object.keys] and
    [Object.entries] never list that name. *)
Definition changed_props
    (createDiff : value → value → option Diff)
    (oldObj newObj : list (string * value)) : list (string * Diff) :=
  omap (fun kv : string * value =>
          if negb (has_property kv.1 newObj) then None
          else
            let nv := get_property kv.1 newObj in
            if negb (strict_eq nv kv.2) then
              match createDiff kv.2 nv with
              | Some childDiff =>
                  if decide (kv.1 = proto_accessor) then None
                  else Some (kv.1, childDiff)
              | None => None
              end
            else None) oldObj.

Definition deleted_props (oldObj newObj : list (string * value))
  : list string :=
  omap (fun kv : string * value =>
          if negb (has_property kv.1 newObj) then Some kv.1 else None) oldObj.

(** [key in oldObj] sees what [oldObj] inherits: a property of the new
    object named like a member of [Object.prototype] is never added. *)
Definition added_props_of (oldObj newObj : list (string * value))
  : list (string * value) :=
  omap (fun kv : string * value =>
          if negb (has_property kv.1 oldObj) then Some kv else None) newObj.

Definition createObjectDiff_with
    (createDiff : value → value → option Diff)
    (oldObj newObj : list (string * value)) : option Diff :=
  let changed := changed_props createDiff oldObj newObj in
  let deleted := deleted_props oldObj newObj in
  let added := added_props_of oldObj newObj in
  if bool_decide (length (obj_keys changed) = 0)
     && bool_decide (length (obj_keys added) = 0)
     && bool_decide (length deleted = 0)
  then None
  else Some (ObjectDiff changed added deleted).

Fixpoint createDiff (oldValue newValue : value) {struct oldValue}
  : option Diff :=
  if strict_eq oldValue newValue then None
  else
    match oldValue with
    | VArr _ oldArray =>
        match newValue with
        | VArr _ newArray => createArrayDiff oldArray newArray
        | _ => Some (ValueDiff oldValue newValue)
        end
    | VObj _ oldObj =>
        match own_props newValue with
        | Some newObj => createObjectDiff_with createDiff oldObj newObj
        | None => Some (ValueDiff oldValue newValue)
        end
    | VObjectPrototype =>
        match own_props newValue with
        | Some newObj => createObjectDiff_with createDiff [] newObj
        | None => Some (ValueDiff oldValue newValue)
        end
    | _ => Some (ValueDiff oldValue newValue)
    end.

Definition createObjectDiff := createObjectDiff_with createDiff.

(** [items.sort((a, b) => b.index - a.index)]: a stable sort, highest
    index first. *)
Fixpoint insert_by_index (x : ArrayItem) (l : list ArrayItem)
  : list ArrayItem :=
  match l with
  | [] => [x]
  | y :: l' =>
      if decide (index y ≤ index x)%nat then x :: y :: l'
      else y :: insert_by_index x l'
  end.

Definition sort_by_index_desc (l : list ArrayItem) : list ArrayItem :=
  foldr insert_by_index [] l.

(** The second loop of [applyArrayDiff], one item. *)
Definition apply_item (result : list value) (item : ArrayItem) : list value :=
  if added item then splice_insert (index item) (value_of item) result
  else if negb (removed item) && is_defined (value_of item) then
    array_set (index item) (value_of item) result
  else result.

Definition applyArrayDiff (arr : list value) (items : list ArrayItem)
    (rt : Runtime.t) : value * Runtime.t :=
  let '(r, rt) := Runtime.alloc rt in
  let result := arr in
  let removals :=
    sort_by_index_desc (List.filter (fun item => removed item) items) in
  let result :=
    fold_left (fun res item => splice_remove (index item) res)
              removals result in
  let result := fold_left apply_item items result in
  (VArr r result, rt).

(** The three loops of [applyObjectDiff].  The recursive call on a
    changed property is a parameter.  [result] is a plain object, so
    [key in result] holds for the members of [Object.prototype] too: a
    changed entry under such a name is applied to the inherited member
    and the outcome stored as a property of [result]. *)
Definition apply_changed
    (applyDiff : value → Diff → Runtime.t → value * Runtime.t)
    (changed : list (string * Diff))
    (result : list (string * value)) (rt : Runtime.t)
  : list (string * value) * Runtime.t :=
  fold_left (fun (acc : list (string * value) * Runtime.t)
                 (entry : string * Diff) =>
               if has_property entry.1 acc.1 then
                 let '(x', rt') :=
                   applyDiff (get_property entry.1 acc.1) entry.2 acc.2 in
                 (obj_set entry.1 x' acc.1, rt')
               else acc) changed (result, rt).

Definition assign_added (added_props : list (string * value))
    (result : list (string * value)) : list (string * value) :=
  fold_left (fun res (entry : string * value) => obj_set entry.1 entry.2 res)
            added_props result.

Definition delete_deleted (deleted : list string)
    (result : list (string * value)) : list (string * value) :=
  fold_left (fun res key => obj_delete key res) deleted result.

Definition applyObjectDiff_with
    (applyDiff : value → Diff → Runtime.t → value * Runtime.t)
    (obj : list (string * value))
    (changed : list (string * Diff))
    (added_props : list (string * value))
    (deleted : list string)
    (rt : Runtime.t) : value * Runtime.t :=
  let '(r, rt) := Runtime.alloc rt in
  let result := obj in
  let '(result, rt) := apply_changed applyDiff changed result rt in
  let result := assign_added added_props result in
  let result := delete_deleted deleted result in
  (VObj r result, rt).

Definition unable_to_apply : string :=
  "Unable to apply diff, returning original value".

Fixpoint applyDiff (v : value) (diff : Diff) (rt : Runtime.t) {struct diff}
  : value * Runtime.t :=
  match diff with
  | ValueDiff _ after => (after, rt)
  | ArrayDiff items =>
      match v with
      | VArr _ arr => applyArrayDiff arr items rt
      | _ => (v, Runtime.console_warn unable_to_apply rt)
      end
  | ObjectDiff changed added_props deleted =>
      match props_of v with
      | Some obj =>
          applyObjectDiff_with applyDiff obj changed added_props deleted rt
      | None => (v, Runtime.console_warn unable_to_apply rt)
      end
  end.

Definition applyObjectDiff := applyObjectDiff_with applyDiff.

Definition reverse_item (item : ArrayItem) : ArrayItem :=
  {| index := index item;
     value_of := value_of item;
     added := removed item;
     removed := added item |}.

Fixpoint reverseDiff (diff : Diff) : Diff :=
  match diff with
  | ValueDiff before after => ValueDiff after before
  | ArrayDiff items => ArrayDiff (map reverse_item items)
  | ObjectDiff changed added_props deleted =>
      ObjectDiff
        (fold_left (fun obj (entry : string * Diff) =>
                      obj_set entry.1 (reverseDiff entry.2) obj) changed [])
        (fold_left (fun obj key => obj_set key VUndefined obj) deleted [])
        (obj_keys added_props)
  end.

End DiffUtils.

(** ** [src/types.ts] and the state of [src/historyManager.ts] *)
Module Types.
Import Js DiffUtils.

(** The [diff: unknown] field of a history entry.  [Structural d] is an
    object of one of the three [Diff] shapes; [Opaque v] is any other
    value: the previous value kept in place of a diff, or the result of a
    custom diff whose [type] property, if it has one, is none of
    ['value'], ['array'] and ['object']. *)
Inductive diff_field : Type :=
| Structural (d : Diff)
| Opaque (v : value).

(** The type guard of undo and redo on an [Opaque] field:
    [typeof diff === 'object' && diff !== null && 'type' in diff].
    [type] is no index and no member of [Array.prototype] or
    [Object.prototype], so the guard holds of objects with a property of
    that name only. *)
Definition has_type (v : value) : bool :=
  match v with
  | VObj _ props => has_property "type" props
  | _ => false
  end.

(** [fullValue] absent reads as [undefined]. *)
Record HistoryEntry : Type := mkEntry {
  id : string;
  diff : diff_field;
  timestamp : Z;
  fullValue : value
}.

Record HistoryStack : Type := mkStack {
  past : list HistoryEntry;
  future : list HistoryEntry
}.

(** What [atomWithHistory] closes over, with the [id] it attaches to the
    atom.  A callback that throws returns [None]. *)
Record AtomWithHistory : Type := mkAtom {
  atom_id : string;
  baseAtom : nat;                       (* the key of its base atom *)
  initialValue : value;
  historyLimit : option number;
  shouldTrack : option (value → value → option bool);
  customDiff : option (value → value → option diff_field);
  useFullValueInstead : bool
}.

(** [historyStore] with the module-level state of [historyManager.ts].
    The hook of [useHistory.ts] runs on the same store. *)
Record World : Type := mkWorld {
  historyStackAtom : HistoryStack;
  isHistoryOperationInProgressAtom : bool;
  currentGroupOperationAtom : option (list HistoryEntry);
  isGroupOperationInProgressAtom : bool;
  atomRegistry : gmap string AtomWithHistory;
  baseAtoms : gmap nat value;           (* base atoms that were written *)
  clock : nat → Z;                      (* the readings of [Date.now()],
                                           in the order of the calls *)
  clock_reads : nat;                    (* how many were taken so far *)
  runtime : Runtime.t
}.

Definition set_historyStack (s : HistoryStack) (w : World) : World :=
  mkWorld s (isHistoryOperationInProgressAtom w) (currentGroupOperationAtom w)
          (isGroupOperationInProgressAtom w) (atomRegistry w) (baseAtoms w)
          (clock w) (clock_reads w) (runtime w).

Definition set_isHistoryOperation (b : bool) (w : World) : World :=
  mkWorld (historyStackAtom w) b (currentGroupOperationAtom w)
          (isGroupOperationInProgressAtom w) (atomRegistry w) (baseAtoms w)
          (clock w) (clock_reads w) (runtime w).

Definition set_currentGroupOperation (g : option (list HistoryEntry))
    (w : World) : World :=
  mkWorld (historyStackAtom w) (isHistoryOperationInProgressAtom w) g
          (isGroupOperationInProgressAtom w) (atomRegistry w) (baseAtoms w)
          (clock w) (clock_reads w) (runtime w).

Definition set_isGroupOperation (b : bool) (w : World) : World :=
  mkWorld (historyStackAtom w) (isHistoryOperationInProgressAtom w)
          (currentGroupOperationAtom w) b (atomRegistry w) (baseAtoms w)
          (clock w) (clock_reads w) (runtime w).

Definition set_atomRegistry (r : gmap string AtomWithHistory) (w : World)
  : World :=
  mkWorld (historyStackAtom w) (isHistoryOperationInProgressAtom w)
          (currentGroupOperationAtom w) (isGroupOperationInProgressAtom w)
          r (baseAtoms w) (clock w) (clock_reads w) (runtime w).

Definition set_baseAtoms (b : gmap nat value) (w : World) : World :=
  mkWorld (historyStackAtom w) (isHistoryOperationInProgressAtom w)
          (currentGroupOperationAtom w) (isGroupOperationInProgressAtom w)
          (atomRegistry w) b (clock w) (clock_reads w) (runtime w).

Definition set_runtime (rt : Runtime.t) (w : World) : World :=
  mkWorld (historyStackAtom w) (isHistoryOperationInProgressAtom w)
          (currentGroupOperationAtom w) (isGroupOperationInProgressAtom w)
          (atomRegistry w) (baseAtoms w) (clock w) (clock_reads w) rt.

Definition set_clock_reads (n : nat) (w : World) : World :=
  mkWorld (historyStackAtom w) (isHistoryOperationInProgressAtom w)
          (currentGroupOperationAtom w) (isGroupOperationInProgressAtom w)
          (atomRegistry w) (baseAtoms w) (clock w) n (runtime w).

(** What the next call of [Date.now()] returns. *)
Definition now (w : World) : Z := clock w (clock_reads w).

(** [Date.now()] *)
Definition Date_now (w : World) : Z * World :=
  (now w, set_clock_reads (S (clock_reads w)) w).

(** How a call ends: it returns, or an exception leaves it. *)
Inductive result (A : Type) : Type :=
| Return (a : A) (w : World)
| Throw (w : World).
Arguments Return {A} a w.
Arguments Throw {A} w.

Definition world_of {A} (r : result A) : World :=
  match r with Return _ w => w | Throw w => w end.

Definition returns {A} (r : result A) : bool :=
  match r with Return _ _ => true | Throw _ => false end.

(** [try { body } finally { cleanup }] *)
Definition try_finally {A} (body : result A) (cleanup : World → World)
  : result A :=
  match body with
  | Return a w => Return a (cleanup w)
  | Throw w => Throw (cleanup w)
  end.

End Types.

(** ** [src/historyManager.ts] *)
Module HistoryManager.
Import Js DiffUtils Types.

Definition DEFAULT_HISTORY_LIMIT : number := number_of_nat 50.

Definition registerHistoryAtom (a : AtomWithHistory) (w : World) : World :=
  set_atomRegistry (<[atom_id a := a]> (atomRegistry w)) w.

Definition unregisterHistoryAtom (a : AtomWithHistory) (w : World) : World :=
  set_atomRegistry (delete (atom_id a) (atomRegistry w)) w.

Definition getAtomById (key : string) (w : World) : option AtomWithHistory :=
  atomRegistry w !! key.

(** The [options] argument of [pushToHistory]. *)
Record PushOptions : Type := mkOptions {
  opt_historyLimit : option number;
  opt_useFullValueInstead : bool;
  opt_customDiff : option (value → value → option diff_field)
}.

(** [options?.historyLimit || DEFAULT_HISTORY_LIMIT] *)
Definition effective_limit (options : PushOptions) : number :=
  match opt_historyLimit options with
  | Some n => if truthy n then n else DEFAULT_HISTORY_LIMIT
  | None => DEFAULT_HISTORY_LIMIT
  end.

Definition isComplexDiff (d : Diff) : bool :=
  match d with
  | ObjectDiff changed _ _ => bool_decide (10 < length (obj_keys changed))%nat
  | ArrayDiff items => bool_decide (20 < length items)%nat
  | ValueDiff _ _ => false
  end.

(** The first half of [pushToHistory]: [entryData], or nothing to record. *)
Inductive entry_data : Type :=
| Record_entry (d : diff_field) (full : value)
| No_change
| Diff_threw.

Definition compute_entryData (prevValue nextValue : value)
    (options : PushOptions) : entry_data :=
  if opt_useFullValueInstead options then
    Record_entry (Opaque prevValue) prevValue
  else
    match opt_customDiff options with
    | Some f =>
        match f prevValue nextValue with
        | Some d => Record_entry d VUndefined
        | None => Diff_threw
        end
    | None =>
        match createDiff prevValue nextValue with
        | None => No_change
        | Some d =>
            Record_entry (Structural d)
                         (if isComplexDiff d then prevValue else VUndefined)
        end
    end.

(** [newPast.shift()] *)
Definition shift {A} (l : list A) : list A := tail l.

Definition pushToHistory (key : string) (prevValue nextValue : value)
    (options : PushOptions) (w : World) : result unit :=
  let historyLimit := effective_limit options in
  match compute_entryData prevValue nextValue options with
  | Diff_threw => Throw w
  | No_change => Return () w
  | Record_entry d full =>
      let '(timestamp, w) := Date_now w in
      let entry := mkEntry key d timestamp full in
      match currentGroupOperationAtom w with
      | Some group =>
          Return () (set_currentGroupOperation (Some (group ++ [entry])) w)
      | None =>
          let currentStack := historyStackAtom w in
          let newPast := past currentStack ++ [entry] in
          let newPast :=
            if exceeds (length newPast) historyLimit then shift newPast
            else newPast in
          Return () (set_historyStack (mkStack newPast []) w)
      end
  end.

Definition startGroupOperation (w : World) : World :=
  set_currentGroupOperation (Some []) (set_isGroupOperation true w).

Definition endGroupOperation (w : World) : World :=
  let w :=
    match currentGroupOperationAtom w with
    | Some ((_ :: _) as groupEntries) =>
        let currentStack := historyStackAtom w in
        set_historyStack (mkStack (past currentStack ++ groupEntries) []) w
    | _ => w
    end in
  set_currentGroupOperation None (set_isGroupOperation false w).

End HistoryManager.

(** ** [src/atomWithHistory.ts] *)
Module AtomWithHistoryModule.
Import Js DiffUtils Types HistoryManager.

(** [historyStore.get(atom)] *)
Definition getAtomValue (a : AtomWithHistory) (w : World) : value :=
  default (initialValue a) (baseAtoms w !! baseAtom a).

(** [options.shouldTrack || ((prev, next) => prev !== next)] *)
Definition effective_shouldTrack (a : AtomWithHistory)
  : value → value → option bool :=
  match shouldTrack a with
  | Some f => f
  | None => fun prev next => Some (negb (strict_eq prev next))
  end.

(** The setter of the atom: [historyStore.set(atom, update)]. *)
Definition setAtomValue (a : AtomWithHistory) (update : value) (w : World)
  : result unit :=
  let prevValue := getAtomValue a w in
  let nextValue := update in
  match effective_shouldTrack a prevValue nextValue with
  | None => Throw w
  | Some false => Return () w
  | Some true =>
      let pushed :=
        if negb (isHistoryOperationInProgressAtom w) then
          pushToHistory (atom_id a) prevValue nextValue
            (mkOptions (historyLimit a) (useFullValueInstead a) (customDiff a))
            w
        else Return () w in
      match pushed with
      | Throw w' => Throw w'
      | Return _ w' =>
          Return () (set_baseAtoms (<[baseAtom a := update]> (baseAtoms w')) w')
      end
  end.

End AtomWithHistoryModule.

(** ** [src/useHistory.ts] *)
Module UseHistory.
Import Js DiffUtils Types HistoryManager AtomWithHistoryModule.

Definition error_applying_undo : string := "Error applying diff during undo:".
Definition error_applying_redo : string := "Error applying diff during redo:".
Definition cannot_undo : string :=
  "Cannot undo - unable to apply diff and no fullValue available".
Definition cannot_redo : string :=
  "Cannot redo - unable to apply diff and no fullValue available".

Definition log_error (message : string) (w : World) : World :=
  set_runtime (Runtime.console_error message (runtime w)) w.

(** [setHistoryStack(updater)]: the updater runs on the current stack and
    what it returns becomes the stack. *)
Definition setHistoryStack
    (updater : HistoryStack → World → result HistoryStack) (w : World)
  : result unit :=
  match updater (historyStackAtom w) w with
  | Return s w' => Return () (set_historyStack s w')
  | Throw w' => Throw w'
  end.

(** The value [undo] restores, or [None] where it gives up.  On an
    [Opaque] diff the type guard throws, or else [reverseDiff], which
    knows none of its types; the handler logs it, finds no value diff to
    fall back on and logs again. *)
Definition previous_value (lastEntry : HistoryEntry) (currentValue : value)
    (w : World) : option value * World :=
  if is_defined (fullValue lastEntry) then (Some (fullValue lastEntry), w)
  else
    match diff lastEntry with
    | Structural d =>
        let reversedDiff := reverseDiff d in
        let '(v, rt) := applyDiff currentValue reversedDiff (runtime w) in
        (Some v, set_runtime rt w)
    | Opaque _ =>
        (None, log_error cannot_undo (log_error error_applying_undo w))
    end.

Definition undo_updater (currentStack : HistoryStack) (w : World)
  : result HistoryStack :=
  match last (past currentStack) with
  | None => Return currentStack w
  | Some lastEntry =>
      let newPast := removelast (past currentStack) in
      match getAtomById (id lastEntry) w with
      | None => Return currentStack w
      | Some atomWithId =>
          let w := set_isHistoryOperation true w in
          try_finally
            (let currentValue := getAtomValue atomWithId w in
             match previous_value lastEntry currentValue w with
             | (None, w) => Return currentStack w
             | (Some previousValue, w) =>
                 match setAtomValue atomWithId previousValue w with
                 | Throw w => Throw w
                 | Return _ w =>
                     let '(timestamp, w) := Date_now w in
                     Return
                       (mkStack newPast
                          (future currentStack ++
                             [mkEntry (id lastEntry) (diff lastEntry) timestamp
                                      (fullValue lastEntry)]))
                       w
                 end
             end)
            (set_isHistoryOperation false)
      end
  end.

Definition undo (w : World) : result unit := setHistoryStack undo_updater w.

(** The value [redo] restores, or [None] where it gives up.  An [Opaque]
    diff that passes the type guard goes to [applyDiff], which knows none
    of its types: it warns and hands the current value back.  One that
    does not pass makes the guard throw; the handler logs it, finds no
    value diff to fall back on and logs again. *)
Definition next_value (nextEntry : HistoryEntry) (currentValue : value)
    (w : World) : option value * World :=
  if is_defined (fullValue nextEntry) then (Some (fullValue nextEntry), w)
  else
    match diff nextEntry with
    | Structural d =>
        let '(v, rt) := applyDiff currentValue d (runtime w) in
        (Some v, set_runtime rt w)
    | Opaque v =>
        if has_type v then
          (Some currentValue,
           set_runtime (Runtime.console_warn unable_to_apply (runtime w)) w)
        else
          (None, log_error cannot_redo (log_error error_applying_redo w))
    end.

Definition redo_updater (currentStack : HistoryStack) (w : World)
  : result HistoryStack :=
  match last (future currentStack) with
  | None => Return currentStack w
  | Some nextEntry =>
      let newFuture := removelast (future currentStack) in
      match getAtomById (id nextEntry) w with
      | None => Return currentStack w
      | Some atomWithId =>
          let w := set_isHistoryOperation true w in
          try_finally
            (let currentValue := getAtomValue atomWithId w in
             match next_value nextEntry currentValue w with
             | (None, w) => Return currentStack w
             | (Some nextValue, w) =>
                 match setAtomValue atomWithId nextValue w with
                 | Throw w => Throw w
                 | Return _ w =>
                     let '(timestamp, w) := Date_now w in
                     Return
                       (mkStack
                          (past currentStack ++
                             [mkEntry (id nextEntry) (diff nextEntry) timestamp
                                      (fullValue nextEntry)])
                          newFuture)
                       w
                 end
             end)
            (set_isHistoryOperation false)
      end
  end.

Definition redo (w : World) : result unit := setHistoryStack redo_updater w.

Definition clear (w : World) : result unit :=
  setHistoryStack (fun _ w => Return (mkStack [] []) w) w.

Definition groupOperations (callback : World → result unit) (w : World)
  : result unit :=
  try_finally (callback (startGroupOperation w)) endGroupOperation.

Definition canUndo (w : World) : bool :=
  bool_decide (0 < length (past (historyStackAtom w))).

Definition canRedo (w : World) : bool :=
  bool_decide (0 < length (future (historyStackAtom w))).

End UseHistory.

(** ** Side conditions of the properties *)
Module Conditions.
Import Js DiffUtils Types HistoryManager.

(** Plain data: primitives, arrays and objects, with no property named
    like a member of [Object.prototype] at any depth. *)
Fixpoint plain (v : value) : bool :=
  match v with
  | VArr _ xs => forallb plain xs
  | VObj _ ps =>
      forallb (fun kx : string * value => negb (inherited kx.1) && plain kx.2)
              ps
  | VFun _ | VObjectPrototype => false
  | _ => true
  end.

(** No array element replaced in place gets the value [undefined]. *)
Fixpoint no_undefined_replacement (d : Diff) : bool :=
  match d with
  | ValueDiff _ _ => true
  | ArrayDiff items =>
      forallb (fun item =>
                 added item || removed item || is_defined (value_of item))
              items
  | ObjectDiff changed _ _ =>
      forallb (fun entry : string * Diff => no_undefined_replacement entry.2)
              changed
  end.

(** The diff records no deleted property and no array element replaced
    in place, at any depth. *)
Fixpoint reversible (d : Diff) : bool :=
  match d with
  | ValueDiff _ _ => true
  | ArrayDiff items => forallb (fun item => added item || removed item) items
  | ObjectDiff changed _ deleted =>
      bool_decide (deleted = [])
      && forallb (fun entry : string * Diff => reversible entry.2) changed
  end.

(** The limit the pushes of atom [a] run with is at least 1: then a push
    never shifts off the entry it has just appended.  So it is when
    [historyLimit] is absent, 0, [NaN], or a number from 1 on. *)
Definition keeps_last (a : AtomWithHistory) : bool :=
  negb (exceeds 1 (effective_limit
                     (mkOptions (historyLimit a) (useFullValueInstead a)
                                (customDiff a)))).

(** One call of [pushToHistory]: the atom id, the previous and the next
    value. *)
Definition push : Type := string * value * value.

(** The entry a push records in world [w], if it records one. *)
Definition entry_of (options : PushOptions) (w : World) (p : push)
  : option HistoryEntry :=
  match compute_entryData p.1.2 p.2 options with
  | Record_entry d full => Some (mkEntry p.1.1 d (now w) full)
  | _ => None
  end.

(** The entries a sequence of pushes records from world [w] on, if each
    of them records one: every push reads the clock once. *)
Fixpoint entries_of (options : PushOptions) (w : World) (pushes : list push)
  : option (list HistoryEntry) :=
  match pushes with
  | [] => Some []
  | p :: rest =>
      match entry_of options w p, entries_of options (Date_now w).2 rest with
      | Some e, Some entries => Some (e :: entries)
      | _, _ => None
      end
  end.

(** Calls of [pushToHistory] one after the other. *)
Fixpoint push_all (options : PushOptions) (pushes : list push) (w : World)
  : result unit :=
  match pushes with
  | [] => Return () w
  | p :: rest =>
      match pushToHistory p.1.1 p.1.2 p.2 options w with
      | Return _ w' => push_all options rest w'
      | Throw w' => Throw w'
      end
  end.

End Conditions.

(** ** Concrete values and worlds *)
Module Examples.
Import Js DiffUtils Types HistoryManager AtomWithHistoryModule UseHistory.
Import Conditions.

Definition rt0 : Runtime.t := Runtime.mk 100 [].

(** [[1]] and [[undefined]] *)
Definition array_one : value := VArr 1 [VNum 1].
Definition array_undefined : value := VArr 2 [VUndefined].

(** [[2]] *)
Definition array_two : value := VArr 3 [VNum 2].

(** [{a: 1}] and [{}] *)
Definition object_a : value := VObj 1 [("a", VNum 1)].
Definition object_empty : value := VObj 2 [].

(** [{a: 1, b: 2}] and [{b: 3, c: 4}] *)
Definition object_ab : value := VObj 1 [("a", VNum 1); ("b", VNum 2)].
Definition object_bc : value := VObj 2 [("b", VNum 3); ("c", VNum 4)].

(** [{b: [1, 2]}] and [{b: [1, 2, 3], c: 4}] *)
Definition object_b : value :=
  VObj 1 [("b", VArr 2 [VNum 1; VNum 2])].
Definition object_b_c : value :=
  VObj 3 [("b", VArr 4 [VNum 1; VNum 2; VNum 3]); ("c", VNum 4)].

(** An empty object diff. *)
Definition empty_object_diff : Diff := ObjectDiff [] [] [].

(** [{a: 2, toString: 1}] *)
Definition object_a_toString : value :=
  VObj 6 [("a", VNum 2); ("toString", VNum 1)].

(** A diff whose [changed] names a property the object does not have. *)
Definition diff_of_missing : Diff :=
  ObjectDiff [("ghost", ValueDiff (VNum 0) (VNum 1));
              ("a", ValueDiff (VNum 1) (VNum 2))] [("c", VNum 4)] [].

(** A diff whose [changed] names a member of [Object.prototype]. *)
Definition diff_of_inherited : Diff :=
  ObjectDiff [("toString", ValueDiff VUndefined (VNum 1))] [] [].

(** [atomWithHistory(0, {id})] *)
Definition counter (key : string) (base : nat) : AtomWithHistory :=
  mkAtom key base (VNum 0) None None None false.

Definition atomA : AtomWithHistory := counter "a" 0.
Definition atomB : AtomWithHistory := counter "b" 1.
Definition atomC : AtomWithHistory := counter "c" 2.

(** The store before anything happened. *)
Definition initial_world : World :=
  mkWorld (mkStack [] []) false None false ∅ ∅
          (fun n => 1000 + Z.of_nat n)%Z 0 (Runtime.mk 0 []).

Definition three_atoms : World :=
  registerHistoryAtom atomC
    (registerHistoryAtom atomB (registerHistoryAtom atomA initial_world)).

(** [setA(1); setB(1); setC(1)] *)
Definition set_three (w : World) : result unit :=
  match setAtomValue atomA (VNum 1) w with
  | Throw w => Throw w
  | Return _ w =>
      match setAtomValue atomB (VNum 1) w with
      | Throw w => Throw w
      | Return _ w => setAtomValue atomC (VNum 1) w
      end
  end.

(** After [groupOperations(() => { setA(1); setB(1); setC(1) })]. *)
Definition after_group : World :=
  world_of (groupOperations set_three three_atoms).

(** The last entry of [past] names an atom that is not registered. *)
Definition orphan_entry : HistoryEntry :=
  mkEntry "gone" (Structural (ValueDiff (VNum 0) (VNum 1))) 5 VUndefined.

Definition orphan_world : World :=
  set_historyStack (mkStack [orphan_entry] []) three_atoms.

(** [n] changes of one counter, pushed one after the other. *)
Definition counting (n : nat) : list push :=
  map (fun i => ("a", VNum (Z.of_nat i), VNum (Z.of_nat (S i)))) (seq 0 n).

Definition limit_50 : PushOptions :=
  mkOptions (Some (number_of_nat 50)) false None.

Definition limit_3 : PushOptions :=
  mkOptions (Some (number_of_nat 3)) false None.

(** A history that holds as many entries as the limit allows. *)
Definition full_world : World :=
  world_of (push_all limit_50 (counting 50) three_atoms).

(** An atom whose [shouldTrack] throws. *)
Definition throwing_atom : AtomWithHistory :=
  mkAtom "t" 7 (VNum 0) None (Some (fun _ _ => None)) None false.

Definition throwing_world : World :=
  set_historyStack
    (mkStack [mkEntry "t" (Structural (ValueDiff (VNum 0) (VNum 1))) 5 VUndefined]
             [mkEntry "t" (Structural (ValueDiff (VNum 1) (VNum 2))) 6 VUndefined])
    (registerHistoryAtom throwing_atom initial_world).

End Examples.

(** ** Side conditions and concrete inputs of the further properties *)
Module Further.
Import Js DiffUtils Types HistoryManager AtomWithHistoryModule UseHistory.
Import Conditions Examples.


(** What an entry says, without the time it was written. *)
Definition entry_content (e : HistoryEntry) : string * diff_field * value :=
  (id e, diff e, fullValue e).

(** The timeline of a stack: [past], then [future] from its last entry
    back to its first. *)
Definition timeline (s : HistoryStack) : list (string * diff_field * value) :=
  map entry_content (past s ++ rev (future s)).

(** [{a: 1}] a second time, at another reference. *)
Definition object_a_again : value := VObj 5 [("a", VNum 1)].

(** [{list: [1, 2], n: 1}] and [{list: [1, 5, 3], n: 2, m: null}] *)
Definition nested_old : value :=
  VObj 1 [("list", VArr 2 [VNum 1; VNum 2]); ("n", VNum 1)].
Definition nested_new : value :=
  VObj 3 [("list", VArr 4 [VNum 1; VNum 5; VNum 3]); ("n", VNum 2);
          ("m", VNull)].


(** An atom with a custom diff that returns the new value as it is. *)
Definition custom_atom : AtomWithHistory :=
  mkAtom "custom" 3 (VNum 0) None None
         (Some (fun _ next => Some (Opaque next))) false.

(** An atom that stores full values. *)
Definition full_value_atom : AtomWithHistory :=
  mkAtom "full" 4 (VNum 0) None None None true.

Definition five_atoms : World :=
  registerHistoryAtom full_value_atom
    (registerHistoryAtom custom_atom three_atoms).

(** A callback that records one change and then throws. *)
Definition write_then_throw (w : World) : result unit :=
  match setAtomValue atomA (VNum 1) w with
  | Throw w => Throw w
  | Return _ w => Throw w
  end.

End Further.

Import Js DiffUtils Types HistoryManager AtomWithHistoryModule UseHistory.
Import Conditions Examples Further.

(** * Properties *)

(** ** Records *)
Section Records.
Context {A : Type}.
Implicit Types (o : list (string * A)) (k key : string) (x v : A).

Lemma obj_has_true k o : obj_has k o = true ↔ is_Some (obj_get k o).
Proof. unfold obj_has. destruct (obj_get k o); split; intros H; eauto; try done; by destruct H. Qed.

Lemma obj_has_false k o : obj_has k o = false ↔ obj_get k o = None.
Proof. unfold obj_has. destruct (obj_get k o); split; intros H; done. Qed.

Lemma obj_get_In k x o : obj_get k o = Some x → In (k, x) o.
Proof.
  induction o as [|[k' x'] o IH]; simpl; [done|].
  destruct (decide (k' = k)) as [->|]; [intros [= ->]; by left | right; auto].
Qed.

Lemma obj_get_None_keys k o : obj_get k o = None ↔ ¬ In k (obj_keys o).
Proof.
  induction o as [|[k' x'] o IH]; simpl; [tauto|].
  destruct (decide (k' = k)) as [->|Hne]; [split; [done|tauto]|].
  rewrite IH. tauto.
Qed.

Lemma obj_get_Some_keys k o : is_Some (obj_get k o) ↔ In k (obj_keys o).
Proof.
  destruct (obj_get k o) eqn:E.
  - split; [intros _|eauto]. apply obj_get_In in E.
    unfold obj_keys. apply in_map_iff. by exists (k, a).
  - apply obj_get_None_keys in E. split; [intros [? ?]; done | tauto].
Qed.

Lemma In_obj_get k x o : NoDup (obj_keys o) → In (k, x) o → obj_get k o = Some x.
Proof.
  induction o as [|[k' x'] o IH]; simpl; [done|].
  intros Hnd [H|H]; apply NoDup_cons in Hnd as [Hk Hnd].
  - injection H as -> ->. by rewrite decide_True.
  - destruct (decide (k' = k)) as [->|]; [|auto].
    exfalso. apply Hk. apply list_elem_of_In. unfold obj_keys.
    apply in_map_iff. by exists (k, x).
Qed.

Lemma obj_get_set k key v o :
  obj_get k (obj_set key v o) = if decide (key = k) then Some v else obj_get k o.
Proof.
  induction o as [|[k' x'] o IH]; simpl.
  - destruct (decide (key = k)); done.
  - destruct (decide (k' = key)) as [->|Hne]; simpl.
    + destruct (decide (key = k)); done.
    + destruct (decide (k' = k)) as [->|]; [by rewrite decide_False|done].
Qed.

Lemma obj_get_delete k key o :
  obj_get k (obj_delete key o) = if decide (key = k) then None else obj_get k o.
Proof.
  induction o as [|[k' x'] o IH]; simpl.
  - destruct (decide (key = k)); done.
  - destruct (decide (k' = key)) as [->|Hne]; simpl.
    + rewrite IH. destruct (decide (key = k)); done.
    + rewrite IH. destruct (decide (k' = k)) as [->|]; [by rewrite decide_False|done].
Qed.

Lemma obj_keys_set key v o :
  obj_keys (obj_set key v o) =
  if obj_has key o then obj_keys o else obj_keys o ++ [key].
Proof.
  unfold obj_has. induction o as [|[k' x'] o IH]; simpl; [done|].
  destruct (decide (k' = key)) as [->|Hne]; simpl; [done|].
  rewrite IH. by destruct (obj_get key o).
Qed.

Lemma NoDup_obj_set key v o :
  NoDup (obj_keys o) → NoDup (obj_keys (obj_set key v o)).
Proof.
  intros Hnd. rewrite obj_keys_set. destruct (obj_has key o) eqn:E; [done|].
  apply NoDup_app. split_and!; [done| |apply NoDup_singleton].
  intros x Hx ->%list_elem_of_singleton.
  apply obj_has_false, obj_get_None_keys in E. apply E. by apply list_elem_of_In.
Qed.

Lemma obj_keys_delete_subset key k o :
  In k (obj_keys (obj_delete key o)) → In k (obj_keys o).
Proof.
  induction o as [|[k' x'] o IH]; simpl; [done|].
  destruct (decide (k' = key)); simpl; tauto.
Qed.

Lemma NoDup_obj_delete key o :
  NoDup (obj_keys o) → NoDup (obj_keys (obj_delete key o)).
Proof.
  induction o as [|[k' x'] o IH]; simpl; [done|].
  intros [Hk Hnd]%NoDup_cons. destruct (decide (k' = key)); simpl; [auto|].
  apply NoDup_cons. split; [|auto].
  intros Hin%list_elem_of_In%obj_keys_delete_subset. by apply Hk, list_elem_of_In.
Qed.

End Records.

(** ** Own and inherited properties *)
Section Inherited.
Implicit Types (o : list (string * value)) (k key : string) (x v : value).

Lemma inherited_proto_accessor : inherited proto_accessor = true.
Proof. reflexivity. Qed.

Lemma has_property_own k o : inherited k = false → has_property k o = obj_has k o.
Proof. intros H. unfold has_property. rewrite H. apply orb_false_r. Qed.

Lemma has_property_false k o :
  has_property k o = false ↔ obj_get k o = None ∧ inherited k = false.
Proof.
  unfold has_property. rewrite orb_false_iff, obj_has_false. done.
Qed.

Lemma get_property_own k o x : obj_get k o = Some x → get_property k o = x.
Proof. intros H. unfold get_property. by rewrite H. Qed.

Lemma has_property_set k key v o :
  has_property k (obj_set key v o)
  = if decide (key = k) then true else has_property k o.
Proof.
  unfold has_property, obj_has. rewrite obj_get_set. by case_decide.
Qed.

Lemma get_property_set k key v o :
  get_property k (obj_set key v o)
  = if decide (key = k) then v else get_property k o.
Proof. unfold get_property. rewrite obj_get_set. by case_decide. Qed.

Lemma plain_obj r ps :
  plain (VObj r ps) = true
  ↔ ∀ k x, In (k, x) ps → inherited k = false ∧ plain x = true.
Proof.
  simpl. rewrite forallb_forall. split.
  - intros H k x Hin. specialize (H (k, x) Hin). cbn in H.
    apply andb_true_iff in H as [H1 H2]. by apply negb_true_iff in H1.
  - intros H [k x] Hin. destruct (H k x Hin) as [H1 H2]. cbn.
    by rewrite H1, H2.
Qed.

Lemma plain_obj_get r ps k x :
  plain (VObj r ps) = true → obj_get k ps = Some x →
  inherited k = false ∧ plain x = true.
Proof.
  intros Hp Hk. eapply (proj1 (plain_obj r ps) Hp), obj_get_In, Hk.
Qed.

Lemma plain_obj_inherited r ps k :
  plain (VObj r ps) = true → inherited k = true → obj_get k ps = None.
Proof.
  intros Hp Hk. destruct (obj_get k ps) as [x|] eqn:E; [|done].
  destruct (plain_obj_get _ _ _ _ Hp E). congruence.
Qed.

End Inherited.

(** ** Values: induction, structural equality, coherence *)
Section Values.

Lemma value_nested_ind (P : value → Prop) :
  P VUndefined → P VNull → (∀ b, P (VBool b)) → (∀ n, P (VNum n)) →
  P VNaN → (∀ s, P (VStr s)) →
  (∀ r xs, Forall P xs → P (VArr r xs)) →
  (∀ r ps, Forall (fun kx : string * value => P kx.2) ps → P (VObj r ps)) →
  (∀ name, P (VFun name)) → P VObjectPrototype →
  ∀ v, P v.
Proof.
  intros Hu Hn Hb Hz Hnan Hs Harr Hobj Hfun Hproto. fix IH 1.
  intros [ | | b | n | | s | r xs | r ps | name | ];
    [exact Hu | exact Hn | apply Hb | apply Hz | exact Hnan | apply Hs | |
    | apply Hfun | exact Hproto].
  - apply Harr. induction xs as [|x xs IHxs]; constructor; [apply IH | exact IHxs].
  - apply Hobj. induction ps as [|[k x] ps IHps]; constructor; [apply IH | exact IHps].
Qed.

Lemma deepEq_arr r r' xs ys :
  deepEq (VArr r xs) (VArr r' ys) = true
  ↔ Forall2 (fun x y => deepEq x y = true) xs ys.
Proof.
  simpl. revert ys. induction xs as [|x xs IH]; intros [|y ys]; split;
    try done; try (intros H; inversion H; fail).
  - intros [H1 H2]%andb_true_iff. constructor; [done | by apply IH].
  - intros H; inversion H; subst. apply andb_true_iff. split; [done | by apply IH].
Qed.

Lemma deepEq_arr_lookup r r' xs ys :
  deepEq (VArr r xs) (VArr r' ys) = true
  ↔ length xs = length ys
    ∧ ∀ i x y, xs !! i = Some x → ys !! i = Some y → deepEq x y = true.
Proof.
  rewrite deepEq_arr. split.
  - intros H. split; [by eapply Forall2_length|].
    intros i x y Hx Hy. by eapply (Forall2_lookup_lr _ xs ys i x y) in H.
  - intros [Hlen H]. apply Forall2_same_length_lookup_2; [done|]. eauto.
Qed.

Lemma deepEq_obj r r' ps qs :
  NoDup (obj_keys ps) →
  deepEq (VObj r ps) (VObj r' qs) = true
  ↔ ∀ k, same_prop (obj_get k ps) (obj_get k qs).
Proof.
  intros Hnd. simpl. rewrite andb_true_iff, !forallb_forall. split.
  - intros [H1 H2] k. unfold same_prop.
    destruct (obj_get k ps) as [x|] eqn:Ex.
    + apply obj_get_In, H1 in Ex. simpl in Ex.
      by destruct (obj_get k qs).
    + destruct (obj_get k qs) as [y|] eqn:Ey; [|done].
      apply obj_get_In, H2 in Ey. simpl in Ey.
      apply obj_has_true in Ey as [? Ey]. congruence.
  - intros H. split.
    + intros [k x] Hin. simpl. apply In_obj_get in Hin; [|done].
      specialize (H k). rewrite Hin in H. unfold same_prop in H.
      by destruct (obj_get k qs).
    + intros [k y] Hin. simpl. apply obj_has_true.
      assert (is_Some (obj_get k qs)) as [y' Ey].
      { apply obj_get_Some_keys. unfold obj_keys. apply in_map_iff. by exists (k, y). }
      specialize (H k). rewrite Ey in H. unfold same_prop in H.
      destruct (obj_get k ps); [eauto|done].
Qed.

Lemma wf_arr r xs : wf (VArr r xs) = true ↔ ∀ x, In x xs → wf x = true.
Proof. simpl. by rewrite forallb_forall. Qed.

Lemma wf_obj r ps :
  wf (VObj r ps) = true
  ↔ NoDup (obj_keys ps) ∧ ∀ k x, In (k, x) ps → wf x = true.
Proof.
  simpl. rewrite andb_true_iff, bool_decide_eq_true, forallb_forall.
  split; intros [H1 H2]; (split; [done|]).
  - intros k x Hin. by apply (H2 (k, x)).
  - intros [k x] Hin. by apply (H2 k x).
Qed.

Lemma wf_obj_get r ps k x :
  wf (VObj r ps) = true → obj_get k ps = Some x → wf x = true.
Proof.
  intros Hwf Hk. destruct (proj1 (wf_obj r ps) Hwf) as [_ H].
  eapply H, obj_get_In, Hk.
Qed.

Lemma wf_arr_lookup r xs i x :
  wf (VArr r xs) = true → xs !! i = Some x → wf x = true.
Proof.
  intros H Hi. apply (proj1 (wf_arr r xs) H).
  eapply list_elem_of_In, list_elem_of_lookup_2, Hi.
Qed.

Lemma deepEq_refl v : wf v = true → deepEq v v = true.
Proof.
  induction v as [ | | b | n | | s | r xs IH | r ps IH | f | ] using value_nested_ind;
    intros Hwf; try done; try (by apply bool_decide_eq_true).
  - apply deepEq_arr. apply Forall2_same_length_lookup_2; [done|].
    intros i x y Hx Hy. assert (x = y) as -> by congruence.
    rewrite Forall_forall in IH. apply IH.
    + eapply list_elem_of_lookup_2, Hx.
    + eapply wf_arr_lookup; eauto.
  - destruct (proj1 (wf_obj r ps) Hwf) as [Hnd Hch]. apply deepEq_obj; [done|].
    intros k. unfold same_prop. destruct (obj_get k ps) as [x|] eqn:E; [|done].
    rewrite Forall_forall in IH. apply obj_get_In in E.
    apply (IH (k, x)); [by apply list_elem_of_In | by eapply Hch].
Qed.

Lemma deepEq_sym a b : wf a = true → wf b = true → deepEq a b = true → deepEq b a = true.
Proof.
  revert b.
  induction a as [ | | x | n | | s | r xs IH | r ps IH | f | ] using value_nested_ind;
    intros [ | | y | m | | t | r' ys | r' qs | g | ] Ha Hb H; simpl in H; try done.
  - apply bool_decide_eq_true in H as ->. simpl. by apply bool_decide_eq_true.
  - apply bool_decide_eq_true in H as ->. simpl. by apply bool_decide_eq_true.
  - apply bool_decide_eq_true in H as ->. simpl. by apply bool_decide_eq_true.
  - change (deepEq (VArr r xs) (VArr r' ys) = true) in H.
    apply deepEq_arr_lookup in H as [Hlen H]. apply deepEq_arr_lookup.
    split; [done|]. intros i y x Hy Hx.
    rewrite Forall_forall in IH. apply IH; eauto using wf_arr_lookup.
    eapply list_elem_of_lookup_2, Hx.
  - change (deepEq (VObj r ps) (VObj r' qs) = true) in H.
    destruct (proj1 (wf_obj _ _) Ha) as [Hnda _].
    destruct (proj1 (wf_obj _ _) Hb) as [Hndb _].
    rewrite deepEq_obj in H by done. apply deepEq_obj; [done|].
    intros k. specialize (H k). unfold same_prop in *.
    destruct (obj_get k ps) as [x|] eqn:Ex, (obj_get k qs) as [y|] eqn:Ey; try done.
    rewrite Forall_forall in IH.
    apply (IH (k, x)); eauto using wf_obj_get.
    by apply list_elem_of_In, obj_get_In.
  - apply bool_decide_eq_true in H as ->. simpl. by apply bool_decide_eq_true.
Qed.

End Values.

(** ** Values of one heap *)
Section Coherence.

Lemma strict_eq_sym a b : strict_eq a b = strict_eq b a.
Proof.
  destruct a, b; simpl; try done;
    apply bool_decide_ext; split; congruence.
Qed.

Lemma subvalues_self v : In v (subvalues v).
Proof. destruct v; by left. Qed.

Lemma subvalues_arr_child r xs x y :
  In x xs → In y (subvalues x) → In y (subvalues (VArr r xs)).
Proof. intros Hx Hy. right. apply in_flat_map. eauto. Qed.

Lemma subvalues_obj_child r ps k x y :
  In (k, x) ps → In y (subvalues x) → In y (subvalues (VObj r ps)).
Proof. intros Hx Hy. right. apply in_flat_map. by exists (k, x). Qed.

Lemma coherent_spec a b :
  coherent a b = true
  ↔ ∀ x y, In x (subvalues a) → In y (subvalues b) →
           strict_eq x y = true → deepEq x y = true.
Proof.
  unfold coherent. rewrite forallb_forall. split.
  - intros H x y Hx Hy Hs. specialize (H x Hx).
    rewrite forallb_forall in H. specialize (H y Hy). by rewrite Hs in H.
  - intros H x Hx. apply forallb_forall. intros y Hy.
    destruct (strict_eq x y) eqn:E; [|done]. simpl. by apply H.
Qed.

Lemma coherent_strict_eq a b :
  coherent a b = true → strict_eq a b = true → deepEq a b = true.
Proof.
  intros H. apply (proj1 (coherent_spec a b) H); apply subvalues_self.
Qed.

Lemma coherent_arr r r' xs ys x y :
  coherent (VArr r xs) (VArr r' ys) = true → In x xs → In y ys →
  coherent x y = true.
Proof.
  intros H Hx Hy. apply coherent_spec. intros x' y' Hx' Hy'.
  apply (proj1 (coherent_spec _ _) H); by eapply subvalues_arr_child.
Qed.

Lemma coherent_obj r r' ps qs k k' x y :
  coherent (VObj r ps) (VObj r' qs) = true → In (k, x) ps → In (k', y) qs →
  coherent x y = true.
Proof.
  intros H Hx Hy. apply coherent_spec. intros x' y' Hx' Hy'.
  apply (proj1 (coherent_spec _ _) H); by eapply subvalues_obj_child.
Qed.

End Coherence.

(** ** Arrays *)
Section Arrays.
Implicit Types (old new arr res : list value) (items : list ArrayItem).

Lemma array_get_lookup i arr x : arr !! i = Some x → array_get i arr = x.
Proof. unfold array_get. by intros ->. Qed.

Lemma array_item_at_common old new i x y :
  old !! i = Some x → new !! i = Some y →
  array_item_at old new i =
  if strict_eq x y then None else Some (mkItem i y false false).
Proof.
  intros Hx Hy. unfold array_item_at.
  pose proof (lookup_lt_Some _ _ _ Hx). pose proof (lookup_lt_Some _ _ _ Hy).
  rewrite !decide_False by lia.
  rewrite (array_get_lookup _ _ _ Hx), (array_get_lookup _ _ _ Hy).
  by destruct (strict_eq x y).
Qed.

Lemma array_item_at_added old new i :
  length old ≤ i →
  array_item_at old new i = Some (mkItem i (array_get i new) false true).
Proof. intros H. unfold array_item_at. by rewrite decide_True. Qed.

Lemma array_item_at_removed old new i :
  i < length old → length new ≤ i →
  array_item_at old new i = Some (mkItem i (array_get i old) true false).
Proof.
  intros H1 H2. unfold array_item_at.
  rewrite decide_False by lia. by rewrite decide_True.
Qed.

Lemma insert_by_index_last x l :
  Forall (fun y => index x < index y) l → insert_by_index x l = l ++ [x].
Proof.
  induction 1 as [|y l Hy _ IH]; simpl; [done|].
  rewrite decide_False by lia. by rewrite IH.
Qed.

Lemma sort_ascending (g : nat → ArrayItem) a n :
  (∀ i, index (g i) = i) →
  sort_by_index_desc (map g (seq a n)) = rev (map g (seq a n)).
Proof.
  intros Hg. revert a. induction n as [|n IH]; intros a; simpl; [done|].
  unfold sort_by_index_desc in *. rewrite IH.
  apply insert_by_index_last. apply Forall_forall. intros y Hy.
  apply list_elem_of_In, in_rev, in_map_iff in Hy as (i & <- & Hi).
  apply in_seq in Hi. rewrite !Hg. lia.
Qed.

Lemma remove_tail (g : nat → ArrayItem) a n arr :
  (∀ i, index (g i) = i) → length arr = a + n →
  fold_left (fun res item => splice_remove (index item) res)
            (rev (map g (seq a n))) arr = take a arr.
Proof.
  intros Hg. revert arr. induction n as [|n IH]; intros arr Hlen.
  - simpl. rewrite take_ge; [done|lia].
  - rewrite seq_S, map_app, rev_app_distr. simpl. rewrite Hg.
    unfold splice_remove at 2. rewrite (drop_ge arr) by lia. rewrite app_nil_r.
    rewrite IH by (rewrite length_take; lia).
    rewrite take_take. f_equal. lia.
Qed.

Lemma append_items (g : nat → ArrayItem) a n res :
  (∀ i, index (g i) = i ∧ added (g i) = true) → length res = a →
  fold_left apply_item (map g (seq a n)) res
  = res ++ map (fun i => value_of (g i)) (seq a n).
Proof.
  intros Hg. revert a res. induction n as [|n IH]; intros a res Hlen; simpl.
  - by rewrite app_nil_r.
  - unfold apply_item at 2. destruct (Hg a) as [-> ->].
    unfold splice_insert. rewrite take_ge, drop_ge by lia.
    rewrite (IH (S a)) by (rewrite length_app; simpl; lia).
    by rewrite <- app_assoc.
Qed.

Lemma skip_items items res :
  Forall (fun item => added item = false ∧ removed item = true) items →
  fold_left apply_item items res = res.
Proof.
  intros H. revert res. induction H as [|item items [Ha Hr] _ IH]; intros res;
    simpl; [done|].
  unfold apply_item at 2. by rewrite Ha, Hr, IH.
Qed.

Lemma filter_removed_none items :
  Forall (fun item => removed item = false) items →
  List.filter (fun item => removed item) items = [].
Proof. induction 1 as [|item items H _ IH]; simpl; [done|]. by rewrite H. Qed.

Lemma filter_removed_all items :
  Forall (fun item => removed item = true) items →
  List.filter (fun item => removed item) items = items.
Proof. induction 1 as [|item items H _ IH]; simpl; [done|]. by rewrite H, IH. Qed.

(** The items of the indices present on both sides, then those of the
    longer side. *)
Lemma array_items_split old new :
  omap (array_item_at old new) (seq 0 (length old `max` length new))
  = omap (array_item_at old new) (seq 0 (length old `min` length new))
    ++ (if decide (length old ≤ length new) then
          map (fun i => mkItem i (array_get i new) false true)
              (seq (length old) (length new - length old))
        else
          map (fun i => mkItem i (array_get i old) true false)
              (seq (length new) (length old - length new))).
Proof.
  assert (∀ (g : nat → ArrayItem) a n,
    (∀ i, a ≤ i < a + n → array_item_at old new i = Some (g i)) →
    omap (array_item_at old new) (seq a n) = map g (seq a n)) as Htail.
  { intros g a n. revert a. induction n as [|n IH]; intros a Hg; [done|].
    simpl. rewrite Hg by lia. f_equal. apply IH. intros i Hi. apply Hg. lia. }
  destruct (decide (length old ≤ length new)) as [Hle|Hgt].
  - replace (length old `max` length new)
      with (length old `min` length new + (length new - length old)) by lia.
    rewrite seq_app, omap_app. f_equal. simpl.
    replace (length old `min` length new) with (length old) by lia.
    apply Htail. intros i Hi. apply array_item_at_added. lia.
  - replace (length old `max` length new)
      with (length old `min` length new + (length old - length new)) by lia.
    rewrite seq_app, omap_app. f_equal. simpl.
    replace (length old `min` length new) with (length new) by lia.
    apply Htail. intros i Hi. apply array_item_at_removed; lia.
Qed.

(** The items of the indices present on both sides are replacements. *)
Lemma common_items_plain old new k :
  k ≤ length old `min` length new →
  Forall (fun item => added item = false ∧ removed item = false)
         (omap (array_item_at old new) (seq 0 k)).
Proof.
  intros Hk. apply Forall_forall. intros item Hin.
  apply list_elem_of_omap in Hin as (i & Hi & Hitem).
  apply list_elem_of_In, in_seq in Hi.
  destruct (lookup_lt_is_Some_2 old i) as [x Hx]; [lia|].
  destruct (lookup_lt_is_Some_2 new i) as [y Hy]; [lia|].
  rewrite (array_item_at_common _ _ _ _ _ Hx Hy) in Hitem.
  destruct (strict_eq x y); [done|]. by injection Hitem as <-.
Qed.

Lemma replace_common old new k base :
  k ≤ length old `min` length new → k ≤ length base →
  Forall (fun item => added item || removed item || is_defined (value_of item) = true)
         (omap (array_item_at old new) (seq 0 k)) →
  let res := fold_left apply_item (omap (array_item_at old new) (seq 0 k)) base in
  length res = length base
  ∧ ∀ i, res !! i =
         if decide (i < k) then
           if strict_eq (array_get i old) (array_get i new) then base !! i
           else new !! i
         else base !! i.
Proof.
  induction k as [|k IH]; intros Hk Hb Hdef; cbv zeta.
  - split; [done|]. intros i. case_decide; [lia|done].
  - cbv zeta in IH. rewrite seq_S, omap_app, fold_left_app in *.
    apply Forall_app in Hdef as [Hdef1 Hdef2].
    destruct IH as [IHlen IHget]; [lia|lia|done|].
    destruct (lookup_lt_is_Some_2 old k) as [x Hx]; [lia|].
    destruct (lookup_lt_is_Some_2 new k) as [y Hy]; [lia|].
    change (0 + k) with k in *.
    assert (omap (array_item_at old new) [k]
            = if strict_eq x y then [] else [mkItem k y false false]) as Hone.
    { cbn. rewrite (array_item_at_common _ _ _ _ _ Hx Hy).
      by destruct (strict_eq x y). }
    rewrite Hone in *. clear Hone.
    set (res := fold_left apply_item
                  (omap (array_item_at old new) (seq 0 k)) base) in *.
    assert (∀ i, i ≠ k →
      (if decide (i < S k) then
         if strict_eq (array_get i old) (array_get i new) then base !! i
         else new !! i
       else base !! i) = res !! i) as Hother.
    { intros i Hne. rewrite IHget. repeat case_decide; try lia; done. }
    destruct (strict_eq x y) eqn:Exy.
    + cbn. split; [done|]. intros i.
      destruct (decide (i = k)) as [->|Hne]; [|by rewrite Hother].
      rewrite IHget. rewrite decide_False by lia. rewrite decide_True by lia.
      by rewrite (array_get_lookup _ _ _ Hx), (array_get_lookup _ _ _ Hy), Exy.
    + apply (proj1 (Forall_singleton _ _)) in Hdef2. cbn in Hdef2.
      cbn. unfold apply_item. cbn. rewrite Hdef2. unfold array_set.
      rewrite decide_True by lia. rewrite length_insert. split; [done|].
      intros i. destruct (decide (i = k)) as [->|Hne].
      * rewrite list_lookup_insert_eq by lia. rewrite decide_True by lia.
        by rewrite (array_get_lookup _ _ _ Hx), (array_get_lookup _ _ _ Hy), Exy.
      * rewrite list_lookup_insert_ne by done. by rewrite Hother.
Qed.

End Arrays.

Section ArrayRoundTrip.
Implicit Types (old new arr res : list value) (items : list ArrayItem).

Lemma omap_nil_None {A B} (f : A → option B) (l : list A) x :
  omap f l = [] → x ∈ l → f x = None.
Proof.
  intros Hnil Hx. destruct (f x) as [y|] eqn:E; [|done].
  assert (y ∈ omap f l) as Hy by (apply list_elem_of_omap; eauto).
  rewrite Hnil in Hy. by apply not_elem_of_nil in Hy.
Qed.

Lemma common_nil_strict_eq old new k i x y :
  omap (array_item_at old new) (seq 0 k) = [] → i < k →
  old !! i = Some x → new !! i = Some y → strict_eq x y = true.
Proof.
  intros Hnil Hi Hx Hy.
  assert (array_item_at old new i = None) as Hnone.
  { eapply omap_nil_None; [done|]. apply list_elem_of_In, in_seq. lia. }
  rewrite (array_item_at_common _ _ _ _ _ Hx Hy) in Hnone.
  by destruct (strict_eq x y).
Qed.

Lemma createArrayDiff_Some old new d :
  createArrayDiff old new = Some d →
  d = ArrayDiff (omap (array_item_at old new)
                      (seq 0 (length old `max` length new))).
Proof.
  unfold createArrayDiff. case_bool_decide; simpl; [done|]. by intros [= <-].
Qed.

Lemma createArrayDiff_None old new :
  createArrayDiff old new = None →
  length old = length new
  ∧ ∀ i x y, old !! i = Some x → new !! i = Some y → strict_eq x y = true.
Proof.
  unfold createArrayDiff. case_bool_decide as Hnil; simpl; [intros _|done].
  rewrite array_items_split in Hnil. apply app_eq_nil in Hnil as [Hc Ht].
  assert (length old = length new) as Hlen.
  { apply (f_equal length) in Ht. case_decide;
      rewrite length_map, length_seq in Ht; simpl in Ht; lia. }
  split; [done|]. intros i x y Hx Hy.
  eapply (common_nil_strict_eq old new _ i); [done| |done|done].
  apply lookup_lt_Some in Hx, Hy. lia.
Qed.

Lemma lookup_map_seq {B} (g : nat → B) a n i :
  i < n → map g (seq a n) !! i = Some (g (a + i)).
Proof.
  intros Hi. change (map g (seq a n)) with (g <$> seq a n).
  by rewrite list_lookup_fmap, lookup_seq_lt.
Qed.

(** Applying the diff of two arrays to the old one gives the new one. *)
Lemma applyArrayDiff_forward old new rt r :
  Forall (fun item => added item || removed item || is_defined (value_of item) = true)
         (omap (array_item_at old new) (seq 0 (length old `max` length new))) →
  (∀ i x y, old !! i = Some x → new !! i = Some y →
            strict_eq x y = true → deepEq x y = true) →
  (∀ i y, new !! i = Some y → deepEq y y = true) →
  deepEq (applyArrayDiff old
            (omap (array_item_at old new) (seq 0 (length old `max` length new)))
            rt).1
         (VArr r new) = true.
Proof.
  intros Hdef Hcoh Hrefl. rewrite array_items_split in *.
  apply Forall_app in Hdef as [Hdef _].
  pose proof (common_items_plain old new _ (Nat.le_refl _)) as Hplain.
  set (common := omap (array_item_at old new)
                      (seq 0 (length old `min` length new))) in *.
  unfold applyArrayDiff. cbn [Runtime.alloc fst].
  rewrite List.filter_app, fold_left_app.
  rewrite (filter_removed_none common)
    by (eapply Forall_impl; [exact Hplain|]; by intros ? [_ ?]).
  rewrite app_nil_l.
  destruct (decide (length old ≤ length new)) as [Hle|Hgt].
  - rewrite filter_removed_none
      by (apply Forall_forall; intros item (i & <- & _)%list_elem_of_In%in_map_iff; done).
    cbn [sort_by_index_desc foldr fold_left].
    destruct (replace_common old new (length old `min` length new) old)
      as [Hlen Hget]; [lia|lia|done|].
    fold common in Hlen, Hget.
    rewrite (append_items _ (length old)); [|done|lia].
    cbn [fst]. apply deepEq_arr_lookup. split.
    { rewrite length_app, length_map, length_seq. lia. }
    intros i x y Hx Hy. pose proof (lookup_lt_Some _ _ _ Hy) as Hi.
    destruct (decide (i < length old)) as [Hlt|Hge].
    + rewrite lookup_app_l in Hx by lia. rewrite Hget in Hx.
      rewrite decide_True in Hx by lia.
      destruct (lookup_lt_is_Some_2 old i) as [x0 Hx0]; [lia|].
      rewrite (array_get_lookup _ _ _ Hx0), (array_get_lookup _ _ _ Hy) in Hx.
      destruct (strict_eq x0 y) eqn:E.
      * assert (x = x0) as -> by congruence. eauto.
      * assert (x = y) as -> by congruence. eauto.
    + rewrite lookup_app_r in Hx by lia. rewrite Hlen in Hx.
      rewrite lookup_map_seq in Hx by lia. cbn in Hx.
      replace (length old + (i - length old)) with i in Hx by lia.
      rewrite (array_get_lookup _ _ _ Hy) in Hx.
      assert (x = y) as -> by congruence. eauto.
  - rewrite filter_removed_all
      by (apply Forall_forall; intros item (i & <- & _)%list_elem_of_In%in_map_iff; done).
    rewrite sort_ascending by done.
    rewrite remove_tail by (done || lia).
    destruct (replace_common old new (length old `min` length new)
                (take (length new) old)) as [Hlen Hget];
      [lia|rewrite length_take; lia|done|].
    fold common in Hlen, Hget.
    rewrite skip_items
      by (apply Forall_forall; intros item (i & <- & _)%list_elem_of_In%in_map_iff; done).
    cbn [fst]. apply deepEq_arr_lookup. rewrite length_take in Hlen. split; [lia|].
    intros i x y Hx Hy. pose proof (lookup_lt_Some _ _ _ Hy) as Hi.
    rewrite Hget in Hx. rewrite decide_True in Hx by lia.
    rewrite lookup_take_lt in Hx by lia.
    destruct (lookup_lt_is_Some_2 old i) as [x0 Hx0]; [lia|].
    rewrite (array_get_lookup _ _ _ Hx0), (array_get_lookup _ _ _ Hy) in Hx.
    destruct (strict_eq x0 y) eqn:E.
    * assert (x = x0) as -> by congruence. eauto.
    * assert (x = y) as -> by congruence. eauto.
Qed.

End ArrayRoundTrip.

Section ArrayReverse.
Implicit Types (old new arr res : list value) (items : list ArrayItem).

(** Applying the reversed diff of two arrays to the new one gives the old
    one, when no element was replaced in place. *)
Lemma applyArrayDiff_reverse old new rt r :
  Forall (fun item => added item || removed item = true)
         (omap (array_item_at old new) (seq 0 (length old `max` length new))) →
  (∀ i x y, old !! i = Some x → new !! i = Some y →
            strict_eq x y = true → deepEq y x = true) →
  (∀ i x, old !! i = Some x → deepEq x x = true) →
  deepEq (applyArrayDiff new
            (map reverse_item
               (omap (array_item_at old new)
                     (seq 0 (length old `max` length new))))
            rt).1
         (VArr r old) = true.
Proof.
  intros Hrev Hcoh Hrefl. rewrite array_items_split in *.
  apply Forall_app in Hrev as [Hrev _].
  pose proof (common_items_plain old new _ (Nat.le_refl _)) as Hplain.
  assert (omap (array_item_at old new) (seq 0 (length old `min` length new))
          = []) as Hnil.
  { destruct (omap _ _) as [|c cs]; [done|].
    apply Forall_cons in Hrev as [Hc _]. apply Forall_cons in Hplain as [[Ha Hr] _].
    by rewrite Ha, Hr in Hc. }
  rewrite Hnil, app_nil_l in *.
  unfold applyArrayDiff. cbn [Runtime.alloc fst].
  destruct (decide (length old ≤ length new)) as [Hle|Hgt].
  - rewrite map_map. cbn [reverse_item index value_of added removed].
    rewrite filter_removed_all
      by (apply Forall_forall; intros item (i & <- & _)%list_elem_of_In%in_map_iff; done).
    rewrite sort_ascending by done.
    rewrite remove_tail by (done || lia).
    rewrite skip_items
      by (apply Forall_forall; intros item (i & <- & _)%list_elem_of_In%in_map_iff; done).
    cbn [fst]. apply deepEq_arr_lookup. split; [rewrite length_take; lia|].
    intros i y x Hy Hx. pose proof (lookup_lt_Some _ _ _ Hx) as Hi.
    rewrite lookup_take_lt in Hy by lia.
    eapply Hcoh; [done|done|].
    eapply (common_nil_strict_eq old new _ i); [done| |done|done].
    apply lookup_lt_Some in Hy. lia.
  - rewrite map_map. cbn [reverse_item index value_of added removed].
    rewrite filter_removed_none
      by (apply Forall_forall; intros item (i & <- & _)%list_elem_of_In%in_map_iff; done).
    cbn [sort_by_index_desc foldr fold_left].
    rewrite (append_items _ (length new)); [|done|done].
    cbn [fst value_of]. apply deepEq_arr_lookup. split.
    { rewrite length_app, length_map, length_seq. lia. }
    intros i y x Hy Hx. pose proof (lookup_lt_Some _ _ _ Hx) as Hi.
    destruct (decide (i < length new)) as [Hlt|Hge].
    + rewrite lookup_app_l in Hy by lia.
      eapply Hcoh; [done|done|].
      eapply (common_nil_strict_eq old new _ i); [done| |done|done]. lia.
    + rewrite lookup_app_r in Hy by lia.
      rewrite lookup_map_seq in Hy by lia. cbn in Hy.
      replace (length new + (i - length new)) with i in Hy by lia.
      rewrite (array_get_lookup _ _ _ Hx) in Hy.
      assert (y = x) as -> by congruence. eauto.
Qed.

End ArrayReverse.

(** ** The loops over an object's properties *)
Section ObjectLoops.

Lemma obj_get_omap {A B} (F : string * A → option (string * B))
    (h : string → A → option B) (l : list (string * A)) k :
  (∀ kv, F kv = (fun b => (kv.1, b)) <$> h kv.1 kv.2) →
  NoDup (obj_keys l) →
  obj_get k (omap F l) = obj_get k l ≫= h k.
Proof.
  intros HF. induction l as [|[k' x] l IH]; intros Hnd; [done|].
  apply NoDup_cons in Hnd as [Hk' Hnd]. cbn. rewrite HF. cbn.
  destruct (decide (k' = k)) as [->|Hne].
  - destruct (h k x) as [b|] eqn:E; cbn; [by rewrite decide_True|].
    rewrite IH by done.
    assert (obj_get k l = None) as ->; [|done].
    apply obj_get_None_keys. by intros ?%list_elem_of_In.
  - destruct (h k' x) as [b|] eqn:E; cbn; [rewrite decide_False by done|]; auto.
Qed.

Lemma obj_keys_omap_subset {A B} (F : string * A → option (string * B))
    (l : list (string * A)) k :
  (∀ kv e, F kv = Some e → e.1 = kv.1) →
  In k (obj_keys (omap F l)) → In k (obj_keys l).
Proof.
  intros HF (e & <- & He)%in_map_iff.
  apply list_elem_of_In, list_elem_of_omap in He as (kv & Hkv & HFkv).
  rewrite (HF _ _ HFkv). apply in_map. by apply list_elem_of_In.
Qed.

Lemma NoDup_obj_keys_omap {A B} (F : string * A → option (string * B))
    (l : list (string * A)) :
  (∀ kv e, F kv = Some e → e.1 = kv.1) →
  NoDup (obj_keys l) → NoDup (obj_keys (omap F l)).
Proof.
  intros HF. induction l as [|kv l IH]; intros Hnd; [constructor|].
  apply NoDup_cons in Hnd as [Hk Hnd]. cbn.
  destruct (F kv) as [e|] eqn:E; [|auto]. cbn. apply NoDup_cons. split; [|auto].
  rewrite (HF _ _ E). intros Hin%list_elem_of_In%obj_keys_omap_subset; [|done].
  by apply Hk, list_elem_of_In.
Qed.

(** The loop over [changed] *)

Lemma apply_changed_cons app k cd changed obj rt :
  apply_changed app ((k, cd) :: changed) obj rt
  = if has_property k obj then
      apply_changed app changed
        (obj_set k (app (get_property k obj) cd rt).1 obj)
        (app (get_property k obj) cd rt).2
    else apply_changed app changed obj rt.
Proof.
  unfold apply_changed. cbn. destruct (has_property k obj); [|done].
  by destruct (app _ _ _).
Qed.

Lemma apply_changed_NoDup app changed obj rt :
  NoDup (obj_keys obj) → NoDup (obj_keys (apply_changed app changed obj rt).1).
Proof.
  revert obj rt. induction changed as [|[k cd] changed IH]; intros obj rt Hnd;
    [done|].
  rewrite apply_changed_cons. destruct (has_property k obj); [|auto].
  apply IH. by apply NoDup_obj_set.
Qed.

Lemma apply_changed_untouched app changed obj rt k :
  obj_get k changed = None →
  obj_get k (apply_changed app changed obj rt).1 = obj_get k obj.
Proof.
  revert obj rt. induction changed as [|[k' cd] changed IH]; intros obj rt; [done|].
  intros Hk. rewrite apply_changed_cons. cbn in Hk.
  destruct (decide (k' = k)) as [->|Hne]; [done|].
  destruct (has_property k' obj); [|auto].
  rewrite IH by done. rewrite obj_get_set. by rewrite decide_False.
Qed.

Lemma apply_changed_applied app changed obj rt k cd :
  NoDup (obj_keys changed) → obj_get k changed = Some cd →
  inherited k = false →
  ∃ rt', obj_get k (apply_changed app changed obj rt).1
         = (fun x => (app x cd rt').1) <$> obj_get k obj.
Proof.
  revert obj rt. induction changed as [|[k' cd'] changed IH]; intros obj rt; [done|].
  intros [Hk' Hnd]%NoDup_cons Hget Hown. rewrite apply_changed_cons.
  cbn in Hget. revert Hget.
  destruct (decide (k' = k)) as [->|Hne].
  - intros [= ->]. assert (obj_get k changed = None) as Hnone.
    { apply obj_get_None_keys. by intros ?%list_elem_of_In. }
    exists rt. rewrite has_property_own by done. unfold obj_has.
    destruct (obj_get k obj) as [x|] eqn:E.
    + rewrite apply_changed_untouched by done. rewrite obj_get_set.
      rewrite decide_True by done. by rewrite (get_property_own _ _ _ E).
    + rewrite apply_changed_untouched by done. by rewrite E.
  - intros Hk. destruct (has_property k' obj); [|by apply IH].
    destruct (IH (obj_set k' (app (get_property k' obj) cd' rt).1 obj)
                 (app (get_property k' obj) cd' rt).2 Hnd Hk Hown)
      as [rt' Hrt'].
    exists rt'. rewrite Hrt', obj_get_set. by rewrite decide_False.
Qed.

Lemma apply_changed_absent app changed obj rt k :
  has_property k obj = false →
  apply_changed app changed obj rt
  = apply_changed app (obj_delete k changed) obj rt.
Proof.
  revert obj rt. induction changed as [|[k' cd] changed IH]; intros obj rt Hk; [done|].
  cbn [obj_delete]. destruct (decide (k' = k)) as [->|Hne].
  - rewrite apply_changed_cons, Hk. auto.
  - rewrite !apply_changed_cons. destruct (has_property k' obj); [|auto].
    apply IH. rewrite has_property_set. by rewrite decide_False.
Qed.

(** The loop over [added] *)

Lemma assign_added_keeps added_props obj k :
  obj_get k added_props = None →
  obj_get k (assign_added added_props obj) = obj_get k obj.
Proof.
  unfold assign_added. revert obj.
  induction added_props as [|[k' v] added_props IH]; intros obj; [done|].
  cbn. destruct (decide (k' = k)) as [->|Hne]; [done|]. intros Hk.
  rewrite IH by done. rewrite obj_get_set. by rewrite decide_False.
Qed.

Lemma assign_added_sets added_props obj k v :
  NoDup (obj_keys added_props) → obj_get k added_props = Some v →
  obj_get k (assign_added added_props obj) = Some v.
Proof.
  unfold assign_added. revert obj.
  induction added_props as [|[k' v'] added_props IH]; intros obj; [done|].
  intros [Hk' Hnd]%NoDup_cons. cbn. destruct (decide (k' = k)) as [->|Hne].
  - intros [= ->]. fold (assign_added added_props (obj_set k v obj)).
    rewrite assign_added_keeps.
    + rewrite obj_get_set. by rewrite decide_True.
    + apply obj_get_None_keys. by intros ?%list_elem_of_In.
  - intros Hk. by apply IH.
Qed.

Lemma assign_added_NoDup added_props obj :
  NoDup (obj_keys obj) → NoDup (obj_keys (assign_added added_props obj)).
Proof.
  unfold assign_added. revert obj.
  induction added_props as [|[k' v'] added_props IH]; intros obj Hnd; [done|].
  cbn. apply IH. by apply NoDup_obj_set.
Qed.

(** The loop over [deleted] *)

Lemma delete_deleted_keeps deleted obj k :
  ¬ In k deleted →
  obj_get k (delete_deleted deleted obj) = obj_get k obj.
Proof.
  unfold delete_deleted. revert obj.
  induction deleted as [|k' deleted IH]; intros obj Hk; [done|].
  cbn. rewrite IH by (cbn in Hk; tauto). rewrite obj_get_delete.
  rewrite decide_False; [done|]. cbn in Hk. tauto.
Qed.

Lemma delete_deleted_absent deleted obj k :
  obj_get k obj = None → obj_get k (delete_deleted deleted obj) = None.
Proof.
  unfold delete_deleted. revert obj.
  induction deleted as [|k' deleted IH]; intros obj Hk; [done|].
  cbn. apply IH. rewrite obj_get_delete. by case_decide.
Qed.

Lemma delete_deleted_removes deleted obj k :
  In k deleted → obj_get k (delete_deleted deleted obj) = None.
Proof.
  unfold delete_deleted. revert obj.
  induction deleted as [|k' deleted IH]; intros obj Hk; [done|].
  cbn. destruct (decide (k' = k)) as [->|Hne].
  - apply (delete_deleted_absent deleted). rewrite obj_get_delete.
    by rewrite decide_True.
  - apply IH. destruct Hk; [done|tauto].
Qed.

Lemma delete_deleted_NoDup deleted obj :
  NoDup (obj_keys obj) → NoDup (obj_keys (delete_deleted deleted obj)).
Proof.
  unfold delete_deleted. revert obj.
  induction deleted as [|k' deleted IH]; intros obj Hnd; [done|].
  cbn. apply IH. by apply NoDup_obj_delete.
Qed.

End ObjectLoops.

(** ** [createDiff] *)
Section CreateDiff.

Lemma createDiff_unfold a b :
  createDiff a b =
  if strict_eq a b then None
  else match a with
       | VArr _ oldArray =>
           match b with
           | VArr _ newArray => createArrayDiff oldArray newArray
           | _ => Some (ValueDiff a b)
           end
       | VObj _ oldObj =>
           match own_props b with
           | Some newObj => createObjectDiff_with createDiff oldObj newObj
           | None => Some (ValueDiff a b)
           end
       | VObjectPrototype =>
           match own_props b with
           | Some newObj => createObjectDiff_with createDiff [] newObj
           | None => Some (ValueDiff a b)
           end
       | _ => Some (ValueDiff a b)
       end.
Proof. by destruct a. Qed.

Lemma changed_props_get rec old new k :
  NoDup (obj_keys old) →
  obj_get k (changed_props rec old new)
  = obj_get k old ≫= fun ov =>
      if has_property k new then
        if strict_eq (get_property k new) ov then None
        else if decide (k = proto_accessor) then None
             else rec ov (get_property k new)
      else None.
Proof.
  intros Hnd. unfold changed_props.
  rewrite (obj_get_omap _ (fun k ov =>
             if has_property k new then
               if strict_eq (get_property k new) ov then None
               else if decide (k = proto_accessor) then None
                    else rec ov (get_property k new)
             else None)); [done| |done].
  intros [k' ov]. cbn. destruct (has_property k' new); cbn; [|done].
  destruct (strict_eq (get_property k' new) ov); cbn; [done|].
  destruct (rec ov (get_property k' new)); by case_decide.
Qed.

Lemma changed_props_get_own rec old new k :
  NoDup (obj_keys old) → inherited k = false →
  obj_get k (changed_props rec old new)
  = obj_get k old ≫= fun ov =>
      obj_get k new ≫= fun nv =>
        if negb (strict_eq nv ov) then rec ov nv else None.
Proof.
  intros Hnd Hown. rewrite changed_props_get by done.
  destruct (obj_get k old) as [ov|]; [|done]. cbn.
  rewrite has_property_own by done. unfold obj_has.
  destruct (obj_get k new) as [nv|] eqn:En; [|done]. cbn.
  rewrite (get_property_own _ _ _ En).
  destruct (strict_eq nv ov); [done|]. cbn.
  rewrite decide_False; [done|]. intros ->. by rewrite inherited_proto_accessor in Hown.
Qed.

Lemma changed_props_NoDup rec old new :
  NoDup (obj_keys old) → NoDup (obj_keys (changed_props rec old new)).
Proof.
  apply NoDup_obj_keys_omap. intros [k ov] e. cbn.
  destruct (has_property k new); [|done]. cbn.
  destruct (negb _); [|done].
  destruct (rec ov _); [|done]. case_decide; [done|]. by intros [= <-].
Qed.

Lemma added_props_get old new k :
  NoDup (obj_keys new) →
  obj_get k (added_props_of old new)
  = if has_property k old then None else obj_get k new.
Proof.
  intros Hnd. unfold added_props_of.
  rewrite (obj_get_omap _ (fun k v => if negb (has_property k old) then Some v else None));
    [|by intros [k' v]; cbn; destruct (has_property k' old)|done].
  destruct (obj_get k new), (has_property k old); done.
Qed.

Lemma added_props_NoDup old new :
  NoDup (obj_keys new) → NoDup (obj_keys (added_props_of old new)).
Proof.
  apply NoDup_obj_keys_omap. intros [k v] e. cbn.
  destruct (has_property k old); [done|]. by intros [= <-].
Qed.

Lemma deleted_props_In old new k :
  In k (deleted_props old new)
  ↔ In k (obj_keys old) ∧ has_property k new = false.
Proof.
  unfold deleted_props. rewrite <- list_elem_of_In, list_elem_of_omap. split.
  - intros ([k' v] & Hin & Hk). cbn in Hk.
    destruct (has_property k' new) eqn:E; [done|]. injection Hk as <-.
    split; [|done]. apply in_map_iff. exists (k', v). by rewrite <- list_elem_of_In.
  - intros [(kv & <- & Hin)%in_map_iff Hhas]. exists kv.
    split; [by apply list_elem_of_In|]. by rewrite Hhas.
Qed.

Lemma createObjectDiff_with_Some rec old new d :
  createObjectDiff_with rec old new = Some d →
  d = ObjectDiff (changed_props rec old new) (added_props_of old new)
                 (deleted_props old new).
Proof.
  unfold createObjectDiff_with.
  destruct (_ && _); [done|]. by intros [= <-].
Qed.

Lemma createObjectDiff_with_None rec old new :
  createObjectDiff_with rec old new = None →
  changed_props rec old new = [] ∧ added_props_of old new = []
  ∧ deleted_props old new = [].
Proof.
  unfold createObjectDiff_with.
  destruct (_ && _) eqn:E; [intros _|done].
  apply andb_true_iff in E as [[E1 E2]%andb_true_iff E3].
  apply bool_decide_eq_true in E1, E2, E3. unfold obj_keys in *.
  rewrite length_map in E1, E2.
  split_and!; by apply nil_length_inv.
Qed.

Lemma createDiff_None a b :
  wf a = true → wf b = true → coherent a b = true →
  plain a = true → plain b = true →
  createDiff a b = None → deepEq a b = true.
Proof.
  revert b.
  induction a as [ | | x | n | | s | r xs IH | r ps IH | f | ] using value_nested_ind;
    intros b Ha Hb Hcoh Hpa Hpb; rewrite createDiff_unfold;
    (destruct (strict_eq _ b) eqn:Es; [intros _; by apply coherent_strict_eq|]);
    try done.
  - destruct b as [ | | | | | | r' ys | | | ]; try done.
    intros [Hlen Hall]%createArrayDiff_None. apply deepEq_arr_lookup.
    split; [done|]. intros i x y Hx Hy. apply coherent_strict_eq; [|eauto].
    eapply coherent_arr; [done| |];
      eapply list_elem_of_In, list_elem_of_lookup_2; eauto.
  - destruct b as [ | | | | | | | r' qs | | ]; try done.
    cbn [own_props].
    intros (Hch & Hadd & Hdel)%createObjectDiff_with_None.
    destruct (proj1 (wf_obj _ _) Ha) as [Hnda Hwfa].
    destruct (proj1 (wf_obj _ _) Hb) as [Hndb Hwfb].
    apply deepEq_obj; [done|]. intros k. unfold same_prop.
    destruct (obj_get k ps) as [ov|] eqn:Eo.
    + destruct (plain_obj_get _ _ _ _ Hpa Eo) as [Hown Hpo].
      destruct (obj_get k qs) as [nv|] eqn:En.
      * pose proof (changed_props_get_own createDiff ps qs k Hnda Hown) as Hget.
        rewrite Hch, Eo, En in Hget. cbn in Hget.
        apply obj_get_In in Eo as Hino. apply obj_get_In in En as Hinn.
        assert (coherent ov nv = true) as Hc by (eapply coherent_obj; eauto).
        destruct (plain_obj_get _ _ _ _ Hpb En) as [_ Hpn].
        destruct (strict_eq nv ov) eqn:E; cbn in Hget.
        -- apply coherent_strict_eq; [done|]. by rewrite strict_eq_sym.
        -- rewrite Forall_forall in IH.
           apply (IH (k, ov)); eauto. by apply list_elem_of_In.
      * exfalso. assert (In k (deleted_props ps qs)) as Hin.
        { apply deleted_props_In. split; [apply obj_get_Some_keys; eauto|].
          rewrite has_property_own by done. by apply obj_has_false. }
        by rewrite Hdel in Hin.
    + destruct (obj_get k qs) as [nv|] eqn:En; [|done].
      destruct (plain_obj_get _ _ _ _ Hpb En) as [Hown _].
      pose proof (added_props_get ps qs k Hndb) as Hget.
      rewrite Hadd in Hget. rewrite has_property_own in Hget by done.
      apply obj_has_false in Eo. rewrite Eo, En in Hget.
      done.
Qed.

End CreateDiff.

(** ** Round trips *)
Section RoundTrip.

Lemma applyDiff_props v ps changed added_props deleted rt :
  props_of v = Some ps →
  applyDiff v (ObjectDiff changed added_props deleted) rt
  = (VObj (Runtime.next_ref rt)
       (delete_deleted deleted
          (assign_added added_props
             (apply_changed applyDiff changed ps (Runtime.alloc rt).2).1)),
     (apply_changed applyDiff changed ps (Runtime.alloc rt).2).2).
Proof.
  intros Hps. cbn [applyDiff]. rewrite Hps.
  unfold applyObjectDiff_with. cbn [Runtime.alloc snd].
  by destruct (apply_changed _ _ _ _).
Qed.

Lemma applyDiff_object r ps changed added_props deleted rt :
  applyDiff (VObj r ps) (ObjectDiff changed added_props deleted) rt
  = (VObj (Runtime.next_ref rt)
       (delete_deleted deleted
          (assign_added added_props
             (apply_changed applyDiff changed ps (Runtime.alloc rt).2).1)),
     (apply_changed applyDiff changed ps (Runtime.alloc rt).2).2).
Proof. by apply applyDiff_props. Qed.

Lemma own_props_props_of v ps : own_props v = Some ps → props_of v = Some ps.
Proof. by destruct v. Qed.

(** C2, amended: for all plain values [v1], [v2] (no property named like
    a member of [Object.prototype]) with a diff [d = createDiff(v1, v2)]
    in which no array element replaced in place gets the value
    [undefined], [applyDiff(v1, d)] is structurally equal to [v2]. *)
Theorem forward_round_trip (v1 v2 : value) (d : Diff) (rt : Runtime.t) :
  wf v1 = true → wf v2 = true → coherent v1 v2 = true →
  plain v1 = true → plain v2 = true →
  createDiff v1 v2 = Some d →
  no_undefined_replacement d = true →
  deepEq (applyDiff v1 d rt).1 v2 = true.
Proof.
  revert v2 d rt.
  induction v1 as [ | | x | n | | s | r xs IH | r ps IH | f | ] using value_nested_ind;
    intros v2 d rt Ha Hb Hcoh Hpa Hpb; rewrite createDiff_unfold;
    (destruct (strict_eq _ v2) eqn:Es; [done|]);
    try (intros [= <-] _; cbn [applyDiff fst]; by apply deepEq_refl);
    try done.
  - destruct v2 as [ | | | | | | r' ys | | | ];
      try (intros [= <-] _; cbn [applyDiff fst]; by apply deepEq_refl);
      try done.
    intros ->%createArrayDiff_Some Hdef. cbn [applyDiff].
    apply applyArrayDiff_forward.
    + cbn in Hdef. rewrite forallb_forall in Hdef. apply Forall_forall.
      intros item Hin. by apply Hdef, list_elem_of_In.
    + intros i x y Hx Hy Hs. apply coherent_strict_eq; [|done].
      eapply coherent_arr; [done| |];
        eapply list_elem_of_In, list_elem_of_lookup_2; eauto.
    + intros i y Hy. apply deepEq_refl. exact (wf_arr_lookup _ _ _ _ Hb Hy).
  - destruct v2 as [ | | | | | | | r' qs | | ];
      try (intros [= <-] _; cbn [applyDiff fst]; by apply deepEq_refl);
      try done.
    cbn [own_props]. intros ->%createObjectDiff_with_Some Hdef.
    destruct (proj1 (wf_obj _ _) Ha) as [Hnda Hwfa].
    destruct (proj1 (wf_obj _ _) Hb) as [Hndb Hwfb].
    rewrite applyDiff_object. cbn [fst].
    set (rt0 := (Runtime.alloc rt).2).
    set (changed := changed_props createDiff ps qs) in *.
    apply deepEq_obj.
    { by apply delete_deleted_NoDup, assign_added_NoDup, apply_changed_NoDup. }
    intros k. unfold same_prop.
    pose proof (changed_props_get createDiff ps qs k Hnda) as Hch0.
    pose proof (added_props_get ps qs k Hndb) as Hadd.
    pose proof (deleted_props_In ps qs k) as Hdel.
    fold changed in Hch0.
    destruct (inherited k) eqn:Hown.
    { (* no property of either object has an inherited name *)
      pose proof (plain_obj_inherited _ _ _ Hpa Hown) as Eo.
      pose proof (plain_obj_inherited _ _ _ Hpb Hown) as En.
      rewrite Eo, En in *. cbn in Hch0.
      rewrite delete_deleted_absent; [done|].
      rewrite assign_added_keeps by (by destruct (has_property k ps)).
      by rewrite apply_changed_untouched. }
    pose proof (changed_props_get_own createDiff ps qs k Hnda Hown) as Hch.
    fold changed in Hch. clear Hch0.
    rewrite !has_property_own in * by done.
    destruct (obj_get k ps) as [ov|] eqn:Eo.
    + assert (obj_has k ps = true) as Hhas by (apply obj_has_true; eauto).
      rewrite Hhas in Hadd.
      destruct (obj_get k qs) as [nv|] eqn:En.
      * rewrite delete_deleted_keeps.
        2:{ intros [_ Hn]%Hdel. apply obj_has_false in Hn. congruence. }
        rewrite assign_added_keeps by done. cbn in Hch.
        apply obj_get_In in Eo as Hino. apply obj_get_In in En as Hinn.
        assert (coherent ov nv = true) as Hc by (eapply coherent_obj; eauto).
        destruct (plain_obj_get _ _ _ _ Hpa Eo) as [_ Hpo].
        destruct (plain_obj_get _ _ _ _ Hpb En) as [_ Hpn].
        destruct (strict_eq nv ov) eqn:E; cbn in Hch.
        -- rewrite apply_changed_untouched, Eo by done.
           apply coherent_strict_eq; [done|]. by rewrite strict_eq_sym.
        -- destruct (createDiff ov nv) as [cd|] eqn:Ecd.
           ++ destruct (apply_changed_applied applyDiff changed ps rt0 k cd)
                as [rt' ->]; [by apply changed_props_NoDup|done|done|].
              rewrite Eo. cbn. rewrite Forall_forall in IH.
              apply (IH (k, ov)); eauto.
              { by apply list_elem_of_In. }
              cbn in Hdef. rewrite forallb_forall in Hdef.
              apply (Hdef (k, cd)). by apply obj_get_In.
           ++ rewrite apply_changed_untouched, Eo by done.
              apply createDiff_None; eauto.
      * rewrite delete_deleted_removes; [done|].
        apply Hdel. split; [|by apply obj_has_false].
        apply obj_get_Some_keys; eauto.
    + assert (obj_has k ps = false) as Hhas by (by apply obj_has_false).
      rewrite Hhas in Hadd. cbn in Hch.
      destruct (obj_get k qs) as [nv|] eqn:En.
      * rewrite delete_deleted_keeps.
        2:{ intros [Hin _]%Hdel. by apply obj_get_None_keys in Eo. }
        rewrite (assign_added_sets _ _ k nv); [|by apply added_props_NoDup|done].
        apply deepEq_refl. eapply Hwfb, obj_get_In, En.
      * rewrite delete_deleted_absent; [done|].
        rewrite assign_added_keeps by done.
        by rewrite apply_changed_untouched.
Qed.

(** The diff of [{a: 1, b: 2}] and [{b: 3, c: 4}], applied. *)
Lemma forward_round_trip_witness :
  deepEq (applyDiff object_ab
            (ObjectDiff [("b", ValueDiff (VNum 2) (VNum 3))]
                        [("c", VNum 4)] ["a"]) rt0).1
         object_bc = true.
Proof.
  apply (forward_round_trip object_ab object_bc _ rt0); reflexivity.
Defined.

(** C2, as specified: applying [createDiff(v1, v2)] to [v1] gives [v2].
    It fails on [[1]] and [[undefined]]: the item for index 0 carries the
    value [undefined], and [applyArrayDiff] skips a replacement whose
    value is [undefined].  It also fails on [{a: 1}] and
    [{a: 2, toString: 1}]: ['toString' in oldObj] holds by inheritance,
    so the new property is not recorded as added. *)
Lemma forward_round_trip_fails :
  (wf array_one = true ∧ wf array_undefined = true
   ∧ coherent array_one array_undefined = true
   ∧ ∃ d, createDiff array_one array_undefined = Some d
          ∧ (applyDiff array_one d rt0).1 = VArr 100 [VNum 1]
          ∧ deepEq (applyDiff array_one d rt0).1 array_undefined = false)
  ∧ (wf object_a = true ∧ wf object_a_toString = true
     ∧ coherent object_a object_a_toString = true
     ∧ ∃ d, createDiff object_a object_a_toString = Some d
            ∧ no_undefined_replacement d = true
            ∧ (applyDiff object_a d rt0).1 = VObj 100 [("a", VNum 2)]
            ∧ deepEq (applyDiff object_a d rt0).1 object_a_toString = false).
Proof.
  split; (split_and!; [done..|]); eexists; split_and!; reflexivity.
Qed.

End RoundTrip.

Section ReverseRoundTrip.

Lemma fold_obj_set_get {A B} (g : A → B) (l : list (string * A))
    (acc : list (string * B)) k :
  NoDup (obj_keys l) →
  obj_get k (fold_left (fun obj (entry : string * A) =>
                          obj_set entry.1 (g entry.2) obj) l acc)
  = match obj_get k l with
    | Some x => Some (g x)
    | None => obj_get k acc
    end.
Proof.
  revert acc. induction l as [|[k' x] l IH]; intros acc; [done|].
  intros [Hk' Hnd]%NoDup_cons. cbn. rewrite IH by done.
  destruct (decide (k' = k)) as [->|Hne].
  - assert (obj_get k l = None) as ->.
    { apply obj_get_None_keys. by intros ?%list_elem_of_In. }
    rewrite obj_get_set. by rewrite decide_True.
  - destruct (obj_get k l); [done|]. rewrite obj_get_set. by rewrite decide_False.
Qed.

Lemma fold_obj_set_NoDup {A B} (g : A → B) (l : list (string * A))
    (acc : list (string * B)) :
  NoDup (obj_keys acc) →
  NoDup (obj_keys (fold_left (fun obj (entry : string * A) =>
                                obj_set entry.1 (g entry.2) obj) l acc)).
Proof.
  revert acc. induction l as [|[k' x] l IH]; intros acc Hnd; [done|].
  cbn. apply IH. by apply NoDup_obj_set.
Qed.

(** C1, amended: for all plain values [v1], [v2] (no property named like
    a member of [Object.prototype]) with a diff [d = createDiff(v1, v2)]
    that records, at any depth, no deleted property and no array element
    replaced in place, [applyDiff(v2, reverseDiff(d))] is structurally
    equal to [v1]. *)
Theorem reverse_round_trip (v1 v2 : value) (d : Diff) (rt : Runtime.t) :
  wf v1 = true → wf v2 = true → coherent v1 v2 = true →
  plain v1 = true → plain v2 = true →
  createDiff v1 v2 = Some d →
  reversible d = true →
  deepEq (applyDiff v2 (reverseDiff d) rt).1 v1 = true.
Proof.
  revert v2 d rt.
  induction v1 as [ | | x | n | | s | r xs IH | r ps IH | f | ] using value_nested_ind;
    intros v2 d rt Ha Hb Hcoh Hpa Hpb; rewrite createDiff_unfold;
    (destruct (strict_eq _ v2) eqn:Es; [done|]);
    try (intros [= <-] _; cbn [reverseDiff applyDiff fst]; by apply deepEq_refl);
    try done.
  - destruct v2 as [ | | | | | | r' ys | | | ];
      try (intros [= <-] _; cbn [reverseDiff applyDiff fst]; by apply deepEq_refl);
      try done.
    intros ->%createArrayDiff_Some Hrev. cbn [reverseDiff applyDiff].
    apply applyArrayDiff_reverse.
    + cbn in Hrev. rewrite forallb_forall in Hrev. apply Forall_forall.
      intros item Hin. by apply Hrev, list_elem_of_In.
    + intros i x y Hx Hy Hs.
      apply deepEq_sym;
        [exact (wf_arr_lookup _ _ _ _ Ha Hx) | exact (wf_arr_lookup _ _ _ _ Hb Hy) |].
      apply coherent_strict_eq; [|done].
      eapply coherent_arr; [done| |];
        eapply list_elem_of_In, list_elem_of_lookup_2; eauto.
    + intros i x Hx. apply deepEq_refl. exact (wf_arr_lookup _ _ _ _ Ha Hx).
  - destruct v2 as [ | | | | | | | r' qs | | ];
      try (intros [= <-] _; cbn [reverseDiff applyDiff fst]; by apply deepEq_refl);
      try done.
    cbn [own_props]. intros ->%createObjectDiff_with_Some Hrev.
    destruct (proj1 (wf_obj _ _) Ha) as [Hnda Hwfa].
    destruct (proj1 (wf_obj _ _) Hb) as [Hndb Hwfb].
    cbn in Hrev. apply andb_true_iff in Hrev as [Hnodel Hrev].
    apply bool_decide_eq_true in Hnodel.
    cbn [reverseDiff]. rewrite Hnodel. cbn [fold_left].
    rewrite applyDiff_object. cbn [fst].
    set (rt0 := (Runtime.alloc rt).2).
    set (changed := changed_props createDiff ps qs) in *.
    set (changed' := fold_left _ changed []).
    assert (NoDup (obj_keys changed)) as Hndc by (by apply changed_props_NoDup).
    assert (NoDup (obj_keys changed')) as Hndc'
      by (apply fold_obj_set_NoDup; constructor).
    assert (∀ k, obj_get k changed' = reverseDiff <$> obj_get k changed) as Hch'.
    { intros k. unfold changed'. rewrite fold_obj_set_get by done.
      by destruct (obj_get k changed). }
    apply deepEq_obj.
    { by apply delete_deleted_NoDup, assign_added_NoDup, apply_changed_NoDup. }
    intros k. unfold same_prop. unfold assign_added. cbn [fold_left].
    pose proof (changed_props_get createDiff ps qs k Hnda) as Hch0.
    pose proof (added_props_get ps qs k Hndb) as Hadd.
    pose proof (deleted_props_In ps qs k) as Hdel.
    fold changed in Hch0. specialize (Hch' k).
    destruct (inherited k) eqn:Hown.
    { (* no property of either object has an inherited name *)
      pose proof (plain_obj_inherited _ _ _ Hpa Hown) as Eo.
      pose proof (plain_obj_inherited _ _ _ Hpb Hown) as En.
      rewrite Eo, En in *. cbn in Hch0. rewrite Hch0 in Hch'. cbn in Hch'.
      rewrite delete_deleted_absent; [done|].
      by rewrite apply_changed_untouched. }
    pose proof (changed_props_get_own createDiff ps qs k Hnda Hown) as Hch.
    fold changed in Hch. clear Hch0.
    rewrite !has_property_own in * by done.
    destruct (obj_get k ps) as [ov|] eqn:Eo.
    + assert (obj_has k ps = true) as Hhas by (apply obj_has_true; eauto).
      rewrite Hhas in Hadd.
      destruct (obj_get k qs) as [nv|] eqn:En.
      * rewrite delete_deleted_keeps.
        2:{ intros Hin%obj_get_Some_keys. rewrite Hadd in Hin. by destruct Hin. }
        cbn in Hch.
        apply obj_get_In in Eo as Hino. apply obj_get_In in En as Hinn.
        assert (coherent ov nv = true) as Hc by (eapply coherent_obj; eauto).
        assert (wf ov = true) as Hwo by eauto.
        assert (wf nv = true) as Hwn by eauto.
        destruct (plain_obj_get _ _ _ _ Hpa Eo) as [_ Hpo].
        destruct (plain_obj_get _ _ _ _ Hpb En) as [_ Hpn].
        destruct (obj_get k changed) as [cd|] eqn:Ecd; cbn in Hch'.
        -- destruct (apply_changed_applied applyDiff changed' qs rt0 k
                       (reverseDiff cd)) as [rt' ->]; [done|done|done|].
           rewrite En. cbn. rewrite Forall_forall in IH.
           destruct (strict_eq nv ov); [done|]. cbn in Hch.
           apply (IH (k, ov)); eauto.
           { by apply list_elem_of_In. }
           rewrite forallb_forall in Hrev.
           apply (Hrev (k, cd)). by apply obj_get_In.
        -- rewrite apply_changed_untouched, En by done.
           apply deepEq_sym; [done|done|].
           destruct (strict_eq nv ov) eqn:E; cbn in Hch.
           ++ apply coherent_strict_eq; [done|]. by rewrite strict_eq_sym.
           ++ apply createDiff_None; eauto.
      * exfalso. assert (In k (deleted_props ps qs)) as Hin.
        { apply Hdel. split; [|by apply obj_has_false].
          apply obj_get_Some_keys; eauto. }
        by rewrite Hnodel in Hin.
    + assert (obj_has k ps = false) as Hhas by (by apply obj_has_false).
      rewrite Hhas in Hadd. cbn in Hch. rewrite Hch in Hch'. cbn in Hch'.
      destruct (obj_get k qs) as [nv|] eqn:En.
      * rewrite delete_deleted_removes; [done|].
        apply obj_get_Some_keys. rewrite Hadd. eauto.
      * rewrite delete_deleted_absent; [done|].
        by rewrite apply_changed_untouched.
Qed.

(** The diff of [{b: [1, 2]}] and [{b: [1, 2, 3], c: 4}], reversed and
    applied. *)
Lemma reverse_round_trip_witness :
  deepEq (applyDiff object_b_c
            (reverseDiff
               (ObjectDiff
                  [("b", ArrayDiff [mkItem 2 (VNum 3) false true])]
                  [("c", VNum 4)] [])) rt0).1
         object_b = true.
Proof.
  apply (reverse_round_trip object_b object_b_c _ rt0); reflexivity.
Defined.

(** C1, as specified: applying the reversed diff to [v2] gives [v1].  It
    fails on [{a: 1}] and [{}], where the reversed diff re-adds the
    deleted property with the value [undefined], and on [[1]] and [[2]],
    where the reversed item still carries the new value.  It also fails
    on [{a: 1}] and [{a: 2, toString: 1}]: the diff does not record the
    new property as added, so its reverse does not delete it. *)
Lemma reverse_round_trip_fails :
  (wf object_a = true ∧ wf object_empty = true
   ∧ coherent object_a object_empty = true
   ∧ ∃ d, createDiff object_a object_empty = Some d
          ∧ (applyDiff object_empty (reverseDiff d) rt0).1
            = VObj 100 [("a", VUndefined)]
          ∧ deepEq (applyDiff object_empty (reverseDiff d) rt0).1 object_a
            = false)
  ∧ (wf array_one = true ∧ wf array_two = true
     ∧ coherent array_one array_two = true
     ∧ ∃ d, createDiff array_one array_two = Some d
            ∧ (applyDiff array_two (reverseDiff d) rt0).1 = VArr 100 [VNum 2]
            ∧ deepEq (applyDiff array_two (reverseDiff d) rt0).1 array_one
              = false)
  ∧ (wf object_a = true ∧ wf object_a_toString = true
     ∧ coherent object_a object_a_toString = true
     ∧ ∃ d, createDiff object_a object_a_toString = Some d
            ∧ reversible d = true
            ∧ (applyDiff object_a_toString (reverseDiff d) rt0).1
              = VObj 100 [("a", VNum 1); ("toString", VNum 1)]
            ∧ deepEq (applyDiff object_a_toString (reverseDiff d) rt0).1
                     object_a = false).
Proof.
  split; [|split]; (split_and!; [done..|]); eexists; split_and!; reflexivity.
Qed.

End ReverseRoundTrip.

(** ** The diff engine against its specification *)
Section DiffClaims.

(** C9, at the failing input: an object diff applied to the array [[1]]
    is not refused.  [applyDiff] copies the array's index properties into
    a new plain object and writes nothing to the console.  It does so for
    every array and every object diff: the result is what
    [applyObjectDiff] makes of the index properties, never the array. *)
Theorem object_diff_applied_to_array :
  applyDiff array_one empty_object_diff rt0
  = (VObj 100 [("0", VNum 1)], Runtime.mk 101 [])
  ∧ ∀ r elems changed added_props deleted rt,
      applyDiff (VArr r elems) (ObjectDiff changed added_props deleted) rt
      = applyObjectDiff (array_props elems) changed added_props deleted rt
      ∧ isArray (applyDiff (VArr r elems)
                   (ObjectDiff changed added_props deleted) rt).1 = false.
Proof.
  split; [reflexivity|]. intros r elems changed added_props deleted rt.
  split; [reflexivity|]. cbn [applyDiff props_of].
  unfold applyObjectDiff_with. cbn [Runtime.alloc].
  by destruct (apply_changed _ _ _ _).
Qed.

(** Where the fallback is taken: an array diff on a value that is not an
    array, an object diff on a value that is neither an object nor an
    array.  The value comes back as it is, with one warning. *)
Lemma applyDiff_fallback (v : value) (d : Diff) (rt : Runtime.t) :
  match d with
  | ValueDiff _ _ => False
  | ArrayDiff _ => isArray v = false
  | ObjectDiff _ _ _ => is_object v = false
  end →
  applyDiff v d rt = (v, Runtime.console_warn unable_to_apply rt).
Proof. destruct d, v; cbn; done. Qed.

(** C10, as specified: a property named in [changed] that the object
    does not have is left out of the result.  It is not when the name is
    that of a member of [Object.prototype]: [{a: 1}] has no property
    [toString], yet ['toString' in result] holds, the entry is applied to
    the inherited function and the result has the property. *)
Lemma changed_key_inherited_is_applied :
  obj_has "toString" [("a", VNum 1)] = false
  ∧ applyDiff object_a diff_of_inherited rt0
    = (VObj 100 [("a", VNum 1); ("toString", VNum 1)], Runtime.mk 101 []).
Proof. split; reflexivity. Qed.

(** C10, amended: a property named in [changed] that the object neither
    has nor inherits from [Object.prototype] is skipped.  The result, the
    allocations and the console are those of the diff without that
    entry, and the property is absent from the result unless [added]
    holds it.  The records of the diff do not name [__proto__]. *)
Theorem changed_key_absent_is_skipped
    (obj : list (string * value)) (changed : list (string * Diff))
    (added_props : list (string * value)) (deleted : list string)
    (rt : Runtime.t) (key : string) :
  In key (obj_keys changed) →
  ¬ In proto_accessor (obj_keys changed ++ obj_keys added_props) →
  has_property key obj = false →
  applyObjectDiff obj changed added_props deleted rt
  = applyObjectDiff obj (obj_delete key changed) added_props deleted rt
  ∧ (obj_has key added_props = false →
     ∀ r result,
       (applyObjectDiff obj changed added_props deleted rt).1 = VObj r result →
       has_property key result = false).
Proof.
  intros _ _ Habs. unfold applyObjectDiff, applyObjectDiff_with.
  cbn [Runtime.alloc]. rewrite <- apply_changed_absent by done. split; [done|].
  intros Hadd r result.
  destruct (apply_changed _ _ _ _) as [resA rtA] eqn:EA. cbn [fst].
  intros [= _ <-]. apply has_property_false in Habs as [Hnone Hown].
  apply has_property_false. split; [|done].
  apply delete_deleted_absent.
  rewrite assign_added_keeps by (by apply obj_has_false).
  replace resA with (apply_changed applyDiff changed obj
                       {| Runtime.next_ref := S (Runtime.next_ref rt);
                          Runtime.console := Runtime.console rt |}).1
    by (by rewrite EA).
  rewrite (apply_changed_absent _ _ _ _ key)
    by (by apply has_property_false).
  rewrite apply_changed_untouched; [done|].
  rewrite obj_get_delete. by rewrite decide_True.
Qed.

(** [changed] names [ghost], which [{a: 1}] does not have. *)
Lemma changed_key_absent_is_skipped_witness :
  applyDiff object_a diff_of_missing rt0
  = (VObj 100 [("a", VNum 2); ("c", VNum 4)], Runtime.mk 101 [])
  ∧ applyObjectDiff [("a", VNum 1)]
      [("ghost", ValueDiff (VNum 0) (VNum 1)); ("a", ValueDiff (VNum 1) (VNum 2))]
      [("c", VNum 4)] [] rt0
    = applyObjectDiff [("a", VNum 1)]
        [("a", ValueDiff (VNum 1) (VNum 2))] [("c", VNum 4)] [] rt0.
Proof.
  split; [reflexivity|].
  refine (proj1 (changed_key_absent_is_skipped [("a", VNum 1)]
            [("ghost", ValueDiff (VNum 0) (VNum 1));
             ("a", ValueDiff (VNum 1) (VNum 2))]
            [("c", VNum 4)] [] rt0 "ghost" _ _ _)).
  - by left.
  - vm_compute. intros H. repeat (destruct H as [H|H]; [discriminate H|]). exact H.
  - reflexivity.
Defined.

End DiffClaims.

(** ** The history stack against its specification *)
Section HistoryClaims.

(** A whole number as a limit. *)
Lemma truthy_number_of_nat n : truthy (number_of_nat n) = bool_decide (n ≠ 0).
Proof.
  unfold truthy, number_of_nat. destruct n; [done|].
  rewrite bool_decide_eq_true_2 by done.
  destruct (Qeq_bool _ _) eqn:E; [|done].
  apply Qeq_bool_iff in E. unfold Qeq in E. cbn in E. lia.
Qed.

Lemma exceeds_number_of_nat len n :
  exceeds len (number_of_nat n) = bool_decide (n < len).
Proof.
  unfold exceeds, number_of_nat, Qle_bool. cbn. rewrite !Z.mul_1_r.
  destruct (Z.leb_spec (Z.of_nat len) (Z.of_nat n)); cbn; symmetry;
    [apply bool_decide_eq_false|apply bool_decide_eq_true]; lia.
Qed.

(** The limit a push enforces when [historyLimit] is a whole number of at
    least 1, and when it is absent or 0. *)
Lemma effective_limit_configured options limit :
  opt_historyLimit options = Some (number_of_nat limit) ∧ 1 ≤ limit
  ∨ (opt_historyLimit options = None
     ∨ opt_historyLimit options = Some (number_of_nat 0))
    ∧ limit = 50 →
  effective_limit options = number_of_nat limit ∧ 1 ≤ limit.
Proof.
  unfold effective_limit.
  intros [[-> Hl]|[[->| ->] ->]]; [|split; [done|lia]..].
  rewrite truthy_number_of_nat, bool_decide_eq_true_2 by lia. done.
Qed.

(** The entries of a sequence of pushes depend on the world through the
    clock only. *)
Lemma entries_of_clock options pushes w w' :
  clock w = clock w' → clock_reads w = clock_reads w' →
  entries_of options w pushes = entries_of options w' pushes.
Proof.
  revert w w'. induction pushes as [|p pushes IH]; intros w w' Hc Hr; [done|].
  cbn [entries_of]. unfold entry_of, now. rewrite Hc, Hr.
  rewrite (IH (Date_now w).2 (Date_now w').2); [done|done|].
  cbn. by rewrite Hr.
Qed.

Lemma entries_of_length options pushes w entries :
  entries_of options w pushes = Some entries → length entries = length pushes.
Proof.
  revert entries w. induction pushes as [|p pushes IH]; intros entries w H.
  - by injection H as <-.
  - cbn [entries_of] in H. destruct (entry_of options w p); [|done].
    destruct (entries_of options (Date_now w).2 pushes) as [rest|] eqn:E;
      [|done].
    injection H as <-. cbn. f_equal. by eapply IH.
Qed.

Lemma pushToHistory_records key prev next options w d full :
  currentGroupOperationAtom w = None →
  compute_entryData prev next options = Record_entry d full →
  pushToHistory key prev next options w
  = Return ()
      (set_historyStack
         (mkStack
            (if exceeds (length (past (historyStackAtom w)
                                 ++ [mkEntry key d (now w) full]))
                        (effective_limit options)
             then shift (past (historyStackAtom w)
                         ++ [mkEntry key d (now w) full])
             else past (historyStackAtom w) ++ [mkEntry key d (now w) full])
            [])
         (Date_now w).2).
Proof. intros Hg Hd. unfold pushToHistory. rewrite Hd. cbn. by rewrite Hg. Qed.

(** C6: outside a group, every push that records an entry appends it to
    [past] and, if that makes [past] longer than the configured limit
    ([historyLimit], a whole number of at least 1, or 50 when it is absent
    or 0), drops the entry at the head.  After [n] such pushes [past] is
    the old [past] followed by the [n] new entries, without its first
    [min n (length - limit)] entries; 51 pushes on an empty history with
    limit 50 leave the last 50. *)
Theorem push_evicts_oldest (options : PushOptions) (limit : nat)
    (pushes : list push) (entries : list HistoryEntry) (w : World) :
  opt_historyLimit options = Some (number_of_nat limit) ∧ 1 ≤ limit
  ∨ (opt_historyLimit options = None
     ∨ opt_historyLimit options = Some (number_of_nat 0))
    ∧ limit = 50 →
  currentGroupOperationAtom w = None →
  entries_of options w pushes = Some entries →
  ∃ w', push_all options pushes w = Return () w'
        ∧ past (historyStackAtom w')
          = drop (length pushes
                  `min` (length (past (historyStackAtom w) ++ entries)
                         - limit))
                 (past (historyStackAtom w) ++ entries).
Proof.
  intros [Hlimit Hpos]%effective_limit_configured.
  revert entries w. induction pushes as [|[[key prev] next] pushes IH];
    intros entries w Hg Hentries.
  - injection Hentries as <-. exists w. split; [done|].
    cbn. by rewrite app_nil_r.
  - cbn [entries_of] in Hentries.
    destruct (entry_of options w (key, prev, next)) as [e0|] eqn:He; [|done].
    destruct (entries_of options (Date_now w).2 pushes) as [rest|] eqn:Hrest;
      [|done].
    injection Hentries as <-.
    unfold entry_of in He. cbn in He.
    destruct (compute_entryData prev next options) as [d full| |] eqn:Ed;
      try done. injection He as <-.
    cbn [push_all fst snd].
    rewrite (pushToHistory_records _ _ _ _ _ d full) by done.
    rewrite Hlimit, exceeds_number_of_nat.
    set (e := mkEntry key d (now w) full).
    set (w1 := set_historyStack _ _).
    destruct (IH rest w1) as (w' & Hrun & Hpast);
      [done|by rewrite <- Hrest; apply entries_of_clock|].
    exists w'. split; [done|]. rewrite Hpast. subst w1.
    cbn [historyStackAtom set_historyStack past].
    set (p0 := past (historyStackAtom w)).
    replace (p0 ++ e :: rest) with ((p0 ++ [e]) ++ rest)
      by (by rewrite <- app_assoc).
    pose proof (entries_of_length _ _ _ _ Hrest) as Hlen.
    destruct (decide (limit < length (p0 ++ [e]))) as [Hlt|Hge];
      [rewrite bool_decide_eq_true_2 by done
      |rewrite bool_decide_eq_false_2 by done].
    + unfold shift. replace (tail (p0 ++ [e])) with (drop 1 (p0 ++ [e]))
        by (by destruct (p0 ++ [e])).
      rewrite <- drop_app_le by (rewrite length_app; cbn; lia).
      rewrite drop_drop. f_equal.
      rewrite !length_app, length_drop, !length_app in *.
      cbn [length] in *. lia.
    + f_equal. rewrite !length_app in *. cbn [length] in *. lia.
Qed.

(** 51 pushes with [historyLimit = 50] on an empty history: 50 entries
    are left and the first one pushed is not among them.  Four pushes
    with [historyLimit = 3] leave the last three. *)
Lemma push_evicts_oldest_witness :
  (∃ w', push_all limit_50 (counting 51) three_atoms = Return () w'
         ∧ length (past (historyStackAtom w')) = 50
         ∧ head (past (historyStackAtom w'))
           = Some (mkEntry "a" (Structural (ValueDiff (VNum 1) (VNum 2)))
                           1001 VUndefined)
         ∧ ¬ In (mkEntry "a" (Structural (ValueDiff (VNum 0) (VNum 1)))
                         1000 VUndefined)
                (past (historyStackAtom w')))
  ∧ (∃ w', push_all limit_3 (counting 4) three_atoms = Return () w'
           ∧ past (historyStackAtom w')
             = [mkEntry "a" (Structural (ValueDiff (VNum 1) (VNum 2)))
                        1001 VUndefined;
                mkEntry "a" (Structural (ValueDiff (VNum 2) (VNum 3)))
                        1002 VUndefined;
                mkEntry "a" (Structural (ValueDiff (VNum 3) (VNum 4)))
                        1003 VUndefined]).
Proof.
  split.
  - destruct (push_evicts_oldest limit_50 50 (counting 51)
                (map (fun i => mkEntry "a"
                        (Structural (ValueDiff (VNum (Z.of_nat i))
                                               (VNum (Z.of_nat (S i)))))
                        (1000 + Z.of_nat i) VUndefined) (seq 0 51))
                three_atoms) as (w' & Hrun & Hpast);
      [left; split; [reflexivity|lia] | reflexivity | reflexivity |].
    exists w'. split; [exact Hrun|]. rewrite Hpast. clear.
    split; [reflexivity|]. split; [reflexivity|].
    vm_compute. intros H.
    repeat (destruct H as [H|H]; [discriminate H|]). exact H.
  - destruct (push_evicts_oldest limit_3 3 (counting 4)
                (map (fun i => mkEntry "a"
                        (Structural (ValueDiff (VNum (Z.of_nat i))
                                               (VNum (Z.of_nat (S i)))))
                        (1000 + Z.of_nat i) VUndefined) (seq 0 4))
                three_atoms) as (w' & Hrun & Hpast);
      [left; split; [reflexivity|lia] | reflexivity | reflexivity |].
    exists w'. split; [exact Hrun|]. rewrite Hpast. reflexivity.
Defined.

(** C7: outside a group, a push that records an entry leaves [future]
    empty, so [canRedo] is false after it, whatever came before (an undo
    included). *)
Theorem future_cleared_by_push (key : string) (prev next : value)
    (options : PushOptions) (w : World) (d : diff_field) (full : value) :
  currentGroupOperationAtom w = None →
  compute_entryData prev next options = Record_entry d full →
  ∃ w', pushToHistory key prev next options w = Return () w'
        ∧ future (historyStackAtom w') = []
        ∧ canRedo w' = false.
Proof.
  intros Hg Hd. rewrite (pushToHistory_records _ _ _ _ _ d full) by done.
  eexists. split; [done|]. split; reflexivity.
Qed.

(** An undo leaves something to redo; the next push takes it away. *)
Lemma future_cleared_by_push_witness :
  canRedo (world_of (undo after_group)) = true
  ∧ ∃ w', pushToHistory "a" (VNum 1) (VNum 2) limit_50
            (world_of (undo after_group)) = Return () w'
          ∧ future (historyStackAtom w') = []
          ∧ canRedo w' = false.
Proof.
  split; [reflexivity|].
  apply (future_cleared_by_push "a" (VNum 1) (VNum 2) limit_50
           (world_of (undo after_group))
           (Structural (ValueDiff (VNum 1) (VNum 2))) VUndefined);
    reflexivity.
Defined.

End HistoryClaims.

Section UndoRedoClaims.

(** C3, at the failing input: a group of three writes is committed as
    three entries.  One undo reverts only the last write, and it takes
    three to revert the group. *)
Theorem group_is_three_undo_steps :
  length (past (historyStackAtom after_group)) = 3
  ∧ (let w := world_of (undo after_group) in
     getAtomValue atomA w = VNum 1 ∧ getAtomValue atomB w = VNum 1
     ∧ getAtomValue atomC w = VNum 0 ∧ canUndo w = true)
  ∧ (let w := world_of (undo (world_of (undo (world_of (undo after_group))))) in
     getAtomValue atomA w = VNum 0 ∧ getAtomValue atomB w = VNum 0
     ∧ getAtomValue atomC w = VNum 0 ∧ canUndo w = false).
Proof. vm_compute. split_and!; reflexivity. Qed.

(** C5, at the failing input: with 50 entries in [past] and a limit of
    50, committing a group of three leaves 53 entries.  [future] is
    emptied. *)
Theorem group_commit_exceeds_limit :
  length (past (historyStackAtom full_world)) = 50
  ∧ (let w := world_of (groupOperations set_three full_world) in
     length (past (historyStackAtom w)) = 53
     ∧ future (historyStackAtom w) = []).
Proof. vm_compute. split_and!; reflexivity. Qed.

(** What [endGroupOperation] does with a buffer that is not empty. *)
Lemma endGroupOperation_commits w e entries :
  currentGroupOperationAtom w = Some (e :: entries) →
  historyStackAtom (endGroupOperation w)
  = mkStack (past (historyStackAtom w) ++ e :: entries) [].
Proof. intros H. unfold endGroupOperation. by rewrite H. Qed.

(** C4, as specified: undo drops an entry whose atom is not registered.
    It does not: the entry stays on [past] and the stacks keep their
    length. *)
Lemma undo_unresolved_keeps_entry :
  last (past (historyStackAtom orphan_world)) = Some orphan_entry
  ∧ getAtomById (id orphan_entry) orphan_world = None
  ∧ (let w := world_of (undo orphan_world) in
     past (historyStackAtom w) = [orphan_entry]
     ∧ length (past (historyStackAtom w)) + length (future (historyStackAtom w))
       = length (past (historyStackAtom orphan_world))
         + length (future (historyStackAtom orphan_world))).
Proof. vm_compute. split_and!; reflexivity. Qed.

(** C4, amended: when the last entry of [past] names an atom that is not
    registered, undo returns without throwing and changes nothing: no
    atom is written and both stacks are as before, the entry still last
    on [past]. *)
Theorem undo_unresolved_is_noop (w : World) (e : HistoryEntry) :
  last (past (historyStackAtom w)) = Some e →
  getAtomById (id e) w = None →
  undo w = Return () w.
Proof.
  intros Hlast Hreg. unfold undo, setHistoryStack, undo_updater.
  rewrite Hlast, Hreg. by destruct w.
Qed.

(** The stack whose last entry names the unregistered atom [gone]. *)
Lemma undo_unresolved_is_noop_witness :
  undo orphan_world = Return () orphan_world.
Proof.
  apply (undo_unresolved_is_noop orphan_world orphan_entry); reflexivity.
Defined.

(** [redo] has the same guard. *)
Lemma redo_unresolved_is_noop (w : World) (e : HistoryEntry) :
  last (future (historyStackAtom w)) = Some e →
  getAtomById (id e) w = None →
  redo w = Return () w.
Proof.
  intros Hlast Hreg. unfold redo, setHistoryStack, redo_updater.
  rewrite Hlast, Hreg. by destruct w.
Qed.

Lemma previous_value_frame e v w :
  let w' := (previous_value e v w).2 in
  historyStackAtom w' = historyStackAtom w
  ∧ currentGroupOperationAtom w' = currentGroupOperationAtom w
  ∧ isHistoryOperationInProgressAtom w' = isHistoryOperationInProgressAtom w.
Proof.
  unfold previous_value. destruct (is_defined _); [done|].
  destruct (diff e); [|done]. by destruct (applyDiff _ _ _).
Qed.

Lemma next_value_frame e v w :
  let w' := (next_value e v w).2 in
  historyStackAtom w' = historyStackAtom w
  ∧ currentGroupOperationAtom w' = currentGroupOperationAtom w
  ∧ isHistoryOperationInProgressAtom w' = isHistoryOperationInProgressAtom w.
Proof.
  unfold next_value. destruct (is_defined _); [done|].
  destruct (diff e) as [d|x]; [by destruct (applyDiff _ _ _)|].
  by destruct (has_type x).
Qed.

(** While the flag is set, writing an atom records nothing. *)
Lemma setAtomValue_suppressed a v w :
  isHistoryOperationInProgressAtom w = true →
  let w' := world_of (setAtomValue a v w) in
  historyStackAtom w' = historyStackAtom w
  ∧ currentGroupOperationAtom w' = currentGroupOperationAtom w
  ∧ isHistoryOperationInProgressAtom w' = true.
Proof.
  intros Hflag. unfold setAtomValue. rewrite Hflag.
  destruct (effective_shouldTrack a _ _) as [[|]|]; cbn; done.
Qed.

(** Nothing but undo and redo writes the flag. *)
Lemma flag_untouched_elsewhere (w : World) :
  (∀ key prev next options,
     isHistoryOperationInProgressAtom
       (world_of (pushToHistory key prev next options w))
     = isHistoryOperationInProgressAtom w)
  ∧ (∀ a v,
       isHistoryOperationInProgressAtom (world_of (setAtomValue a v w))
       = isHistoryOperationInProgressAtom w)
  ∧ isHistoryOperationInProgressAtom (startGroupOperation w)
    = isHistoryOperationInProgressAtom w
  ∧ isHistoryOperationInProgressAtom (endGroupOperation w)
    = isHistoryOperationInProgressAtom w
  ∧ isHistoryOperationInProgressAtom (world_of (clear w))
    = isHistoryOperationInProgressAtom w.
Proof.
  assert (∀ key prev next options w0,
    isHistoryOperationInProgressAtom
      (world_of (pushToHistory key prev next options w0))
    = isHistoryOperationInProgressAtom w0) as Hpush.
  { intros key prev next options w0. unfold pushToHistory.
    destruct (compute_entryData _ _ _); [|done..]. cbn.
    by destruct (currentGroupOperationAtom w0). }
  split_and!; [done| | done | | done].
  - intros a v. unfold setAtomValue.
    destruct (effective_shouldTrack a _ _) as [[|]|]; [|done..].
    destruct (isHistoryOperationInProgressAtom w) eqn:E; cbn; [done|].
    specialize (Hpush (atom_id a) (getAtomValue a w) v
      (mkOptions (historyLimit a) (useFullValueInstead a) (customDiff a)) w).
    destruct (pushToHistory _ _ _ _ _); cbn in *; congruence.
  - unfold endGroupOperation. by destruct (currentGroupOperationAtom w) as [[|]|].
Qed.

(** C8: the flag is false after every undo and every redo that started
    with the flag false, whether the call returns or throws.  The write
    in between runs with the flag set: it records nothing, so a group
    buffer is as it was before the call. *)
Theorem suppression_flag_cleared (w : World) :
  isHistoryOperationInProgressAtom w = false →
  (isHistoryOperationInProgressAtom (world_of (undo w)) = false
   ∧ currentGroupOperationAtom (world_of (undo w))
     = currentGroupOperationAtom w)
  ∧ (isHistoryOperationInProgressAtom (world_of (redo w)) = false
     ∧ currentGroupOperationAtom (world_of (redo w))
       = currentGroupOperationAtom w).
Proof.
  intros Hflag. split.
  - unfold undo, setHistoryStack, undo_updater.
    destruct (last _) as [e|]; [|done].
    destruct (getAtomById _ _) as [a|]; [|done].
    set (w1 := set_isHistoryOperation true w).
    pose proof (previous_value_frame e (getAtomValue a w1) w1) as (_ & Hg & Hf).
    destruct (previous_value _ _ _) as [[v|] w2]; cbn [snd] in *; [|done].
    pose proof (setAtomValue_suppressed a v w2 Hf) as (_ & Hg' & _).
    destruct (setAtomValue a v w2) as [[] w3|w3]; cbn in *; by rewrite Hg', Hg.
  - unfold redo, setHistoryStack, redo_updater.
    destruct (last _) as [e|]; [|done].
    destruct (getAtomById _ _) as [a|]; [|done].
    set (w1 := set_isHistoryOperation true w).
    pose proof (next_value_frame e (getAtomValue a w1) w1) as (_ & Hg & Hf).
    destruct (next_value _ _ _) as [[v|] w2]; cbn [snd] in *; [|done].
    pose proof (setAtomValue_suppressed a v w2 Hf) as (_ & Hg' & _).
    destruct (setAtomValue a v w2) as [[] w3|w3]; cbn in *; by rewrite Hg', Hg.
Qed.

(** A world where the restoring write throws, in undo and in redo. *)
Lemma suppression_flag_cleared_witness :
  returns (undo throwing_world) = false
  ∧ returns (redo throwing_world) = false
  ∧ (isHistoryOperationInProgressAtom (world_of (undo throwing_world)) = false
     ∧ currentGroupOperationAtom (world_of (undo throwing_world))
       = currentGroupOperationAtom throwing_world)
  ∧ (isHistoryOperationInProgressAtom (world_of (redo throwing_world)) = false
     ∧ currentGroupOperationAtom (world_of (redo throwing_world))
       = currentGroupOperationAtom throwing_world).
Proof.
  split; [reflexivity|]. split; [reflexivity|].
  apply (suppression_flag_cleared throwing_world). reflexivity.
Defined.

End UndoRedoClaims.

(** * Further properties of the diff engine *)
Section DiffEngine.

(** X1: when the built-in diff of two plain values finds nothing to
    record, the values are structurally equal, and [pushToHistory] leaves
    the store as it is, without reading the clock. *)
Theorem unrecorded_change_is_no_change (key : string) (prev next : value)
    (limit : option number) (w : World) :
  wf prev = true → wf next = true → coherent prev next = true →
  plain prev = true → plain next = true →
  createDiff prev next = None →
  deepEq prev next = true
  ∧ pushToHistory key prev next (mkOptions limit false None) w = Return () w.
Proof.
  intros Hp Hn Hc Hpp Hpn Hnone. split; [by apply createDiff_None|].
  unfold pushToHistory, compute_entryData. cbn. by rewrite Hnone.
Qed.

(** Two objects [{a: 1}] at different references. *)
Lemma unrecorded_change_is_no_change_witness :
  strict_eq object_a object_a_again = false
  ∧ deepEq object_a object_a_again = true
  ∧ pushToHistory "a" object_a object_a_again (mkOptions None false None)
      three_atoms = Return () three_atoms.
Proof.
  split; [reflexivity|].
  apply (unrecorded_change_is_no_change "a" object_a object_a_again None
           three_atoms); reflexivity.
Defined.

Lemma apply_changed_console app changed obj rt :
  NoDup (obj_keys changed) →
  (∀ k cd rt', obj_get k changed = Some cd → has_property k obj = true →
               Runtime.console (app (get_property k obj) cd rt').2
               = Runtime.console rt') →
  Runtime.console (apply_changed app changed obj rt).2 = Runtime.console rt.
Proof.
  revert obj rt. induction changed as [|[k cd] changed IH]; intros obj rt; [done|].
  intros [Hk Hnd]%NoDup_cons Hsilent. rewrite apply_changed_cons.
  assert (obj_get k changed = None) as Hnone.
  { apply obj_get_None_keys. by intros ?%list_elem_of_In. }
  destruct (has_property k obj) eqn:E.
  - rewrite IH; [|done|].
    + apply (Hsilent k cd rt); [|done]. cbn. by rewrite decide_True.
    + intros k' cd' rt' Hk' Hx'.
      destruct (decide (k = k')) as [->|Hne]; [congruence|].
      rewrite has_property_set, decide_False in Hx' by done.
      rewrite get_property_set, decide_False by done.
      apply (Hsilent k' cd' rt'); [|done]. cbn. by rewrite decide_False.
  - apply IH; [done|]. intros k' cd' rt' Hk' Hx'.
    destruct (decide (k = k')) as [->|Hne]; [congruence|].
    apply (Hsilent k' cd' rt'); [|done]. cbn. by rewrite decide_False.
Qed.

Lemma applyDiff_props_console v ps changed added_props deleted rt :
  props_of v = Some ps →
  Runtime.console (applyDiff v (ObjectDiff changed added_props deleted) rt).2
  = Runtime.console
      (apply_changed applyDiff changed ps (Runtime.alloc rt).2).2.
Proof. intros Hps. by rewrite (applyDiff_props _ ps). Qed.

Lemma forward_is_silent v1 :
  ∀ v2 d rt, wf v1 = true → createDiff v1 v2 = Some d →
             Runtime.console (applyDiff v1 d rt).2 = Runtime.console rt.
Proof.
  induction v1 as [ | | x | n | | s | r xs IH | r ps IH | f | ] using value_nested_ind;
    intros v2 d rt Ha; rewrite createDiff_unfold;
    (destruct (strict_eq _ v2) eqn:Es; [done|]);
    try (by intros [= <-]).
  - destruct v2 as [ | | | | | | r' ys | | | ]; try (by intros [= <-]).
    by intros ->%createArrayDiff_Some.
  - destruct (own_props v2) as [qs|]; [|by intros [= <-]].
    intros ->%createObjectDiff_with_Some.
    destruct (proj1 (wf_obj _ _) Ha) as [Hnd Hwf].
    rewrite (applyDiff_props_console _ ps) by done.
    rewrite apply_changed_console; [done| |].
    { by apply changed_props_NoDup. }
    intros k cd rt' Hcd _. rewrite changed_props_get in Hcd by done.
    destruct (obj_get k ps) as [ov|] eqn:Eo; [|done]. cbn in Hcd.
    rewrite (get_property_own _ _ _ Eo).
    destruct (has_property k qs); [|done].
    destruct (strict_eq _ ov); [done|]. case_decide; [done|].
    rewrite Forall_forall in IH. apply obj_get_In in Eo as Hin.
    apply (IH (k, ov)) with (v2 := get_property k qs);
      [by apply list_elem_of_In| |done].
    by eapply Hwf.
  - destruct (own_props v2) as [qs|]; [|by intros [= <-]].
    intros ->%createObjectDiff_with_Some.
    by rewrite (applyDiff_props_console _ []).
Qed.

Lemma reverse_is_silent v1 :
  ∀ v2 d rt, wf v1 = true → createDiff v1 v2 = Some d →
             Runtime.console (applyDiff v2 (reverseDiff d) rt).2
             = Runtime.console rt.
Proof.
  induction v1 as [ | | x | n | | s | r xs IH | r ps IH | f | ] using value_nested_ind;
    intros v2 d rt Ha; rewrite createDiff_unfold;
    (destruct (strict_eq _ v2) eqn:Es; [done|]);
    try (by intros [= <-]).
  - destruct v2 as [ | | | | | | r' ys | | | ]; try (by intros [= <-]).
    by intros ->%createArrayDiff_Some.
  - destruct (own_props v2) as [qs|] eqn:Eq; [|by intros [= <-]].
    apply own_props_props_of in Eq.
    intros ->%createObjectDiff_with_Some.
    destruct (proj1 (wf_obj _ _) Ha) as [Hnd Hwf].
    cbn [reverseDiff]. rewrite (applyDiff_props_console _ qs) by done.
    assert (NoDup (obj_keys (changed_props createDiff ps qs))) as Hndc
      by (by apply changed_props_NoDup).
    rewrite apply_changed_console; [done| |].
    { apply fold_obj_set_NoDup. constructor. }
    intros k rcd rt' Hcd _. rewrite fold_obj_set_get in Hcd by done.
    destruct (obj_get k (changed_props createDiff ps qs)) as [cd|] eqn:Ecd;
      [|done]. injection Hcd as <-.
    rewrite changed_props_get in Ecd by done.
    destruct (obj_get k ps) as [ov|] eqn:Eo; [|done]. cbn in Ecd.
    destruct (has_property k qs); [|done].
    destruct (strict_eq _ ov); [done|]. case_decide; [done|].
    rewrite Forall_forall in IH. apply obj_get_In in Eo as Hin.
    apply (IH (k, ov)); [by apply list_elem_of_In| |done].
    by eapply Hwf.
  - destruct (own_props v2) as [qs|] eqn:Eq; [|by intros [= <-]].
    apply own_props_props_of in Eq.
    intros ->%createObjectDiff_with_Some.
    cbn [reverseDiff changed_props omap fold_left].
    by rewrite (applyDiff_props_console _ qs).
Qed.

(** X2: a diff made by [createDiff] always fits the values it was made
    from: applying it to the old value, or its reverse to the new one,
    never takes the fallback and writes nothing to the console. *)
Theorem created_diff_applies_silently (v1 v2 : value) (d : Diff)
    (rt : Runtime.t) :
  wf v1 = true →
  createDiff v1 v2 = Some d →
  Runtime.console (applyDiff v1 d rt).2 = Runtime.console rt
  ∧ Runtime.console (applyDiff v2 (reverseDiff d) rt).2 = Runtime.console rt.
Proof.
  intros Hwf Hd. split; [by eapply forward_is_silent|by eapply reverse_is_silent].
Qed.

(** A nested change: an array inside an object. *)
Lemma created_diff_applies_silently_witness :
  ∃ d, createDiff nested_old nested_new = Some d
       ∧ Runtime.console (applyDiff nested_old d rt0).2 = []
       ∧ Runtime.console (applyDiff nested_new (reverseDiff d) rt0).2 = [].
Proof.
  eexists. split; [reflexivity|].
  refine (created_diff_applies_silently nested_old nested_new _ rt0 _ _);
    reflexivity.
Defined.

End DiffEngine.

Section DiffShape.

Lemma omap_seq_sorted (f : nat → option ArrayItem) a n :
  (∀ i item, f i = Some item → index item = i) →
  StronglySorted lt (map index (omap f (seq a n)))
  ∧ Forall (fun j => a ≤ j) (map index (omap f (seq a n))).
Proof.
  intros Hf. revert a. induction n as [|n IH]; intros a.
  - split; constructor.
  - destruct (IH (S a)) as [Hs Hge]. cbn.
    destruct (f a) as [item|] eqn:E; cbn.
    + rewrite (Hf _ _ E). split.
      * constructor; [done|]. eapply Forall_impl; [exact Hge|]. cbn. lia.
      * constructor; [lia|]. eapply Forall_impl; [exact Hge|]. cbn. lia.
    + split; [done|]. eapply Forall_impl; [exact Hge|]. cbn. lia.
Qed.

Lemma array_item_at_index old new i item :
  array_item_at old new i = Some item → index item = i.
Proof.
  unfold array_item_at. repeat case_decide; [by intros [= <-]..|].
  destruct (negb _); [by intros [= <-]|done].
Qed.

Lemma array_item_at_Some old new i :
  is_Some (array_item_at old new i)
  ↔ length old ≤ i ∨ length new ≤ i
    ∨ strict_eq (array_get i old) (array_get i new) = false.
Proof.
  unfold array_item_at. repeat case_decide.
  - split; [auto|by eauto].
  - split; [auto|by eauto].
  - destruct (strict_eq _ _); cbn; split.
    + by intros [? ?].
    + intros [?|[?|?]]; (lia || done).
    + auto.
    + by eauto.
Qed.

(** X3: the diff of two arrays is positional.  It lists the indices
    below the longer length at which the arrays differ (one is too short,
    or the elements are not [===]), all of them, each once and in
    increasing order; an index past the old array is [added] with the new
    element, an index past the new array is [removed] with the old
    element, and any other listed index holds the new element. *)
Theorem array_diff_is_positional (r r' : ref) (old new : list value)
    (d : Diff) :
  createDiff (VArr r old) (VArr r' new) = Some d →
  ∃ items,
    d = ArrayDiff items ∧ items ≠ []
    ∧ StronglySorted lt (map index items)
    ∧ (∀ i, In i (map index items)
            ↔ i < length old `max` length new
              ∧ (length old ≤ i ∨ length new ≤ i
                 ∨ strict_eq (array_get i old) (array_get i new) = false))
    ∧ Forall (fun item =>
        added item = bool_decide (length old ≤ index item)
        ∧ removed item
          = bool_decide (index item < length old ∧ length new ≤ index item)
        ∧ value_of item
          = (if removed item then array_get (index item) old
             else array_get (index item) new)) items.
Proof.
  rewrite createDiff_unfold. destruct (strict_eq _ _); [done|].
  intros Hd. pose proof (createArrayDiff_Some _ _ _ Hd) as ->.
  eexists. split; [done|]. split_and!.
  - unfold createArrayDiff in Hd. case_bool_decide as Hnil; [done|].
    intros Heq. by rewrite Heq in Hnil.
  - apply omap_seq_sorted, array_item_at_index.
  - intros i. rewrite <- array_item_at_Some. rewrite in_map_iff. split.
    + intros (item & <- & (j & Hj & Hitem)%list_elem_of_In%list_elem_of_omap).
      apply list_elem_of_In, in_seq in Hj.
      rewrite (array_item_at_index _ _ _ _ Hitem). split; [lia|eauto].
    + intros [Hi [item Hitem]]. exists item.
      split; [by eapply array_item_at_index|].
      apply list_elem_of_In, list_elem_of_omap. exists i. split; [|done].
      apply list_elem_of_In, in_seq. lia.
  - apply Forall_forall. intros item (i & Hi & Hitem)%list_elem_of_omap.
    apply list_elem_of_In, in_seq in Hi. revert Hitem. unfold array_item_at.
    destruct (decide (length old ≤ i)) as [Ho|Ho].
    { intros [= <-]. cbn. rewrite bool_decide_eq_true_2 by done.
      rewrite bool_decide_eq_false_2 by lia. split_and!; (done || lia). }
    destruct (decide (length new ≤ i)) as [Hn|Hn].
    { intros [= <-]. cbn. rewrite bool_decide_eq_false_2 by done.
      rewrite bool_decide_eq_true_2 by lia. split_and!; (done || lia). }
    destruct (strict_eq _ _) eqn:E; [done|]. intros [= <-]. cbn.
    rewrite !bool_decide_eq_false_2 by lia. split_and!; (done || lia).
Qed.

(** [[1, 2, 3]] against [[1, 5, 3, 9]]: the indices 1 and 3. *)
Lemma array_diff_is_positional_witness :
  ∃ items,
    ArrayDiff [mkItem 1 (VNum 5) false false; mkItem 3 (VNum 9) false true]
    = ArrayDiff items ∧ items ≠ []
    ∧ StronglySorted lt (map index items)
    ∧ (∀ i, In i (map index items)
            ↔ i < 3 `max` 4
              ∧ (3 ≤ i ∨ 4 ≤ i
                 ∨ strict_eq (array_get i [VNum 1; VNum 2; VNum 3])
                             (array_get i [VNum 1; VNum 5; VNum 3; VNum 9])
                   = false))
    ∧ Forall (fun item =>
        added item = bool_decide (3 ≤ index item)
        ∧ removed item = bool_decide (index item < 3 ∧ 4 ≤ index item)
        ∧ value_of item
          = (if removed item
             then array_get (index item) [VNum 1; VNum 2; VNum 3]
             else array_get (index item) [VNum 1; VNum 5; VNum 3; VNum 9]))
        items.
Proof.
  apply (array_diff_is_positional 1 2 [VNum 1; VNum 2; VNum 3]
           [VNum 1; VNum 5; VNum 3; VNum 9]).
  reflexivity.
Defined.

(** X4: where the diff of two objects puts a property name.  A name that
    is not a member of [Object.prototype] goes to exactly one place: to
    [deleted] if only the old object has it, to [added] with the new
    value if only the new one has it, to [changed] with the diff of the
    two values if both have it, unless these are [===] or their diff is
    null.  A name that is a member of [Object.prototype] is never deleted
    and never added; if the old object has it, it is diffed against what
    the new object reads under it, its own property or the inherited
    member, and under [__proto__] it is not recorded at all. *)
Theorem object_diff_is_complete (r r' : ref)
    (old new : list (string * value)) (d : Diff) :
  wf (VObj r old) = true → wf (VObj r' new) = true →
  createDiff (VObj r old) (VObj r' new) = Some d →
  ∃ changed added_props deleted,
    d = ObjectDiff changed added_props deleted
    ∧ ∀ k,
        (inherited k = false →
         (In k deleted ↔ obj_has k old = true ∧ obj_has k new = false)
         ∧ obj_get k added_props
           = (if obj_has k old then None else obj_get k new)
         ∧ obj_get k changed
           = (obj_get k old ≫= fun ov =>
                obj_get k new ≫= fun nv =>
                  if strict_eq nv ov then None else createDiff ov nv))
        ∧ (inherited k = true →
           ¬ In k deleted
           ∧ obj_get k added_props = None
           ∧ obj_get k changed
             = (obj_get k old ≫= fun ov =>
                  if strict_eq (get_property k new) ov then None
                  else if decide (k = proto_accessor) then None
                       else createDiff ov (get_property k new))).
Proof.
  intros [Hndo _]%wf_obj [Hndn _]%wf_obj. rewrite createDiff_unfold.
  destruct (strict_eq _ _); [done|]. cbn [own_props].
  intros ->%createObjectDiff_with_Some. eexists _, _, _. split; [done|].
  intros k. split; intros Hk.
  - split_and!.
    + rewrite deleted_props_In, <- obj_get_Some_keys, obj_has_true.
      by rewrite has_property_own.
    + rewrite added_props_get by done. by rewrite has_property_own.
    + rewrite changed_props_get_own by done.
      destruct (obj_get k old) as [ov|]; [|done]. cbn.
      destruct (obj_get k new) as [nv|]; [|done]. cbn.
      by destruct (strict_eq nv ov).
  - assert (∀ o, has_property k o = true) as Hin.
    { intros o. unfold has_property. rewrite Hk. apply orb_true_r. }
    split_and!.
    + rewrite deleted_props_In, Hin. by intros [_ ?].
    + rewrite added_props_get by done. by rewrite Hin.
    + rewrite changed_props_get by done.
      destruct (obj_get k old) as [ov|]; [|done]. cbn. by rewrite Hin.
Qed.

(** [{a: 1, b: 2, valueOf: 5}] against [{b: 3, c: 4, toString: 1}]: the
    diff deletes [a], changes [b], adds [c], diffs [valueOf] against the
    inherited function and does not record [toString]. *)
Lemma object_diff_is_complete_witness :
  ∃ changed added_props deleted,
    ObjectDiff [("b", ValueDiff (VNum 2) (VNum 3));
                ("valueOf", ValueDiff (VNum 5) (VFun "valueOf"))]
               [("c", VNum 4)] ["a"]
    = ObjectDiff changed added_props deleted
    ∧ ∀ k,
        (inherited k = false →
         (In k deleted
          ↔ obj_has k [("a", VNum 1); ("b", VNum 2); ("valueOf", VNum 5)]
            = true
            ∧ obj_has k [("b", VNum 3); ("c", VNum 4); ("toString", VNum 1)]
              = false)
         ∧ obj_get k added_props
           = (if obj_has k [("a", VNum 1); ("b", VNum 2); ("valueOf", VNum 5)]
              then None
              else obj_get k [("b", VNum 3); ("c", VNum 4);
                              ("toString", VNum 1)])
         ∧ obj_get k changed
           = (obj_get k [("a", VNum 1); ("b", VNum 2); ("valueOf", VNum 5)]
              ≫= fun ov =>
                obj_get k [("b", VNum 3); ("c", VNum 4); ("toString", VNum 1)]
                ≫= fun nv =>
                  if strict_eq nv ov then None else createDiff ov nv))
        ∧ (inherited k = true →
           ¬ In k deleted
           ∧ obj_get k added_props = None
           ∧ obj_get k changed
             = (obj_get k [("a", VNum 1); ("b", VNum 2); ("valueOf", VNum 5)]
                ≫= fun ov =>
                  if strict_eq
                       (get_property k
                          [("b", VNum 3); ("c", VNum 4); ("toString", VNum 1)])
                       ov
                  then None
                  else if decide (k = proto_accessor) then None
                       else createDiff ov
                              (get_property k
                                 [("b", VNum 3); ("c", VNum 4);
                                  ("toString", VNum 1)]))).
Proof.
  apply (object_diff_is_complete 1 2
           [("a", VNum 1); ("b", VNum 2); ("valueOf", VNum 5)]
           [("b", VNum 3); ("c", VNum 4); ("toString", VNum 1)]); reflexivity.
Defined.






End DiffShape.

(** * Further properties of the history stack *)
Section HistoryStack.

Lemma exceeds_mono n m limit :
  n ≤ m → exceeds n limit = true → exceeds m limit = true.
Proof.
  intros Hnm. destruct limit as [q| | |]; cbn; try done.
  rewrite !negb_true_iff. intros Hn.
  destruct (Qle_bool (inject_Z (Z.of_nat m)) q) eqn:Hm; [|done].
  apply Qle_bool_iff in Hm.
  assert (Qle_bool (inject_Z (Z.of_nat n)) q = true) as Hn'; [|congruence].
  apply Qle_bool_iff. eapply Qle_trans; [|exact Hm].
  rewrite <- Zle_Qle. lia.
Qed.

Lemma last_after_shift {A} (p : list A) (e : A) (evict : bool) :
  (evict = true → p ≠ []) →
  last (if evict then shift (p ++ [e]) else p ++ [e]) = Some e.
Proof.
  intros Hl. destruct evict; [|apply last_snoc].
  destruct p as [|x p]; [by destruct Hl|].
  cbn. apply last_snoc.
Qed.

Lemma removelast_then_last {A} (l : list A) (e : A) :
  last l = Some e → removelast l ++ [e] = l.
Proof.
  intros [l' ->]%last_Some. by rewrite removelast_last.
Qed.

(** X6: where a push outside a group leaves its entry.  The limit is
    [historyLimit], or 50 when that is absent, 0 or [NaN].  With a limit
    of at least 1, or a [past] that is not empty, the entry is the last
    one of [past] afterwards.  A limit below 1, such as -1 or 0.5, makes
    every push shift the head off: on an empty [past] the head is the
    entry just pushed, and [past] stays empty.  A [past] within the limit
    stays within it. *)
Theorem pushed_entry_is_last (key : string) (prev next : value)
    (options : PushOptions) (limit : number) (w : World) (d : diff_field)
    (full : value) :
  opt_historyLimit options = Some limit ∧ truthy limit = true
  ∨ (opt_historyLimit options = None
     ∨ ∃ n, opt_historyLimit options = Some n ∧ truthy n = false)
    ∧ limit = number_of_nat 50 →
  currentGroupOperationAtom w = None →
  compute_entryData prev next options = Record_entry d full →
  ∃ w', pushToHistory key prev next options w = Return () w'
        ∧ (exceeds 1 limit = false ∨ past (historyStackAtom w) ≠ [] →
           last (past (historyStackAtom w'))
           = Some (mkEntry key d (now w) full))
        ∧ (exceeds 1 limit = true →
           past (historyStackAtom w')
           = shift (past (historyStackAtom w) ++ [mkEntry key d (now w) full]))
        ∧ (exceeds (length (past (historyStackAtom w))) limit = false →
           exceeds (length (past (historyStackAtom w'))) limit = false).
Proof.
  intros Hlimit Hg Hd.
  assert (effective_limit options = limit) as Heff.
  { unfold effective_limit.
    destruct Hlimit as [[-> ->]|[[->|(n & -> & ->)] ->]]; done. }
  rewrite (pushToHistory_records _ _ _ _ _ d full) by done. rewrite Heff.
  eexists. split; [done|]. cbn [historyStackAtom set_historyStack past].
  set (p := past (historyStackAtom w)).
  set (e := mkEntry key d (now w) full). split_and!.
  - intros Hok. apply last_after_shift. intros Hev.
    destruct Hok as [Hone|Hne]; [|done]. intros Hnil.
    rewrite Hnil in Hev. cbn in Hev. congruence.
  - intros Hone. rewrite (exceeds_mono 1 (length (p ++ [e])) limit); [done| |done].
    rewrite length_app. cbn. lia.
  - intros Hlen. destruct (exceeds (length (p ++ [e])) limit) eqn:Hev.
    + unfold shift. destruct p as [|x p]; [done|].
      cbn [app tail]. rewrite length_app. cbn [length] in *.
      by rewrite Nat.add_1_r.
    + done.
Qed.

(** A limit of 0 counts as 50 and the entry is kept; a limit of 0.5 on an
    empty history loses it. *)
Lemma pushed_entry_is_last_witness :
  (∃ w', pushToHistory "a" (VNum 0) (VNum 1)
           (mkOptions (Some (number_of_nat 0)) false None) three_atoms
         = Return () w'
         ∧ last (past (historyStackAtom w'))
           = Some (mkEntry "a" (Structural (ValueDiff (VNum 0) (VNum 1)))
                           1000 VUndefined))
  ∧ (∃ w', pushToHistory "a" (VNum 0) (VNum 1)
             (mkOptions (Some (Finite (1 # 2))) false None) three_atoms
           = Return () w'
           ∧ past (historyStackAtom w') = []).
Proof.
  split.
  - destruct (pushed_entry_is_last "a" (VNum 0) (VNum 1)
                (mkOptions (Some (number_of_nat 0)) false None)
                (number_of_nat 50) three_atoms
                (Structural (ValueDiff (VNum 0) (VNum 1))) VUndefined)
      as (w' & Hrun & Hlast & _);
      [right; split; [right; eexists; split; reflexivity|reflexivity]
      |reflexivity|reflexivity|].
    exists w'. split; [exact Hrun|]. apply Hlast. by left.
  - destruct (pushed_entry_is_last "a" (VNum 0) (VNum 1)
                (mkOptions (Some (Finite (1 # 2))) false None)
                (Finite (1 # 2)) three_atoms
                (Structural (ValueDiff (VNum 0) (VNum 1))) VUndefined)
      as (w' & Hrun & _ & Hlost & _);
      [left; split; reflexivity|reflexivity|reflexivity|].
    exists w'. split; [exact Hrun|]. rewrite Hlost; reflexivity.
Defined.

Lemma push_all_buffers options pushes entries w buffer :
  currentGroupOperationAtom w = Some buffer →
  entries_of options w pushes = Some entries →
  ∃ w', push_all options pushes w = Return () w'
        ∧ currentGroupOperationAtom w' = Some (buffer ++ entries)
        ∧ historyStackAtom w' = historyStackAtom w
        ∧ isGroupOperationInProgressAtom w' = isGroupOperationInProgressAtom w.
Proof.
  revert entries w buffer.
  induction pushes as [|[[key prev] next] pushes IH];
    intros entries w buffer Hg Hall.
  - injection Hall as <-. exists w. rewrite app_nil_r. by split_and!.
  - cbn [entries_of] in Hall.
    destruct (entry_of options w (key, prev, next)) as [e0|] eqn:He; [|done].
    destruct (entries_of options (Date_now w).2 pushes) as [rest|] eqn:Hrest;
      [|done].
    injection Hall as <-.
    unfold entry_of in He. cbn in He.
    destruct (compute_entryData prev next options) as [d full| |] eqn:Ed;
      try done. injection He as <-.
    cbn [push_all fst snd]. unfold pushToHistory. rewrite Ed. cbn.
    rewrite Hg.
    set (e := mkEntry key d (now w) full).
    destruct (IH rest (set_currentGroupOperation (Some (buffer ++ [e]))
                         (Date_now w).2)
                 (buffer ++ [e])) as (w' & Hrun & Hbuf & Hstack & Hin);
      [reflexivity|by rewrite <- Hrest; apply entries_of_clock|].
    exists w'. split; [exact Hrun|]. rewrite Hbuf, <- app_assoc.
    split_and!; [reflexivity|exact Hstack|exact Hin].
Qed.

(** X7: a group commits what its callback recorded, in the order it was
    recorded, behind the entries [past] had, without evicting anything,
    and empties [future]; a group that recorded nothing leaves both
    stacks alone.  Afterwards no group is open.  Whatever an enclosing
    group had buffered when this one started is not committed. *)
Theorem group_commits_in_order (options : PushOptions) (pushes : list push)
    (entries : list HistoryEntry) (w : World) :
  entries_of options w pushes = Some entries →
  ∃ w', groupOperations (push_all options pushes) w = Return () w'
        ∧ currentGroupOperationAtom w' = None
        ∧ isGroupOperationInProgressAtom w' = false
        ∧ historyStackAtom w'
          = match entries with
            | [] => historyStackAtom w
            | _ => mkStack (past (historyStackAtom w) ++ entries) []
            end.
Proof.
  intros Hall. unfold groupOperations.
  destruct (push_all_buffers options pushes entries (startGroupOperation w) [])
    as (w1 & Hrun & Hbuf & Hstack & _);
    [done|by rewrite <- Hall; apply entries_of_clock|].
  rewrite Hrun. cbn [try_finally]. eexists. split; [done|].
  unfold endGroupOperation. rewrite Hbuf, Hstack. cbn [app].
  by destruct entries.
Qed.

(** Two changes recorded while an enclosing group holds an entry. *)
Lemma group_commits_in_order_witness :
  ∃ w', groupOperations (push_all limit_50 (counting 2))
          (set_currentGroupOperation (Some [orphan_entry]) three_atoms)
        = Return () w'
        ∧ currentGroupOperationAtom w' = None
        ∧ isGroupOperationInProgressAtom w' = false
        ∧ historyStackAtom w'
          = mkStack
              [mkEntry "a" (Structural (ValueDiff (VNum 0) (VNum 1))) 1000
                       VUndefined;
               mkEntry "a" (Structural (ValueDiff (VNum 1) (VNum 2))) 1001
                       VUndefined] [].
Proof.
  apply (group_commits_in_order limit_50 (counting 2)
           [mkEntry "a" (Structural (ValueDiff (VNum 0) (VNum 1))) 1000
                    VUndefined;
            mkEntry "a" (Structural (ValueDiff (VNum 1) (VNum 2))) 1001
                    VUndefined]
           (set_currentGroupOperation (Some [orphan_entry]) three_atoms)).
  reflexivity.
Defined.

(** X8: [groupOperations] closes the group however the callback ends.
    It returns when the callback returns and throws when it throws; either
    way no group is open afterwards, and entries the callback buffered
    before it ended are committed to [past]. *)
Theorem group_is_closed_on_every_exit (callback : World → result unit)
    (w : World) :
  returns (groupOperations callback w)
  = returns (callback (startGroupOperation w))
  ∧ currentGroupOperationAtom (world_of (groupOperations callback w)) = None
  ∧ isGroupOperationInProgressAtom (world_of (groupOperations callback w))
    = false
  ∧ ∀ e entries,
      currentGroupOperationAtom (world_of (callback (startGroupOperation w)))
      = Some (e :: entries) →
      historyStackAtom (world_of (groupOperations callback w))
      = mkStack
          (past (historyStackAtom
                   (world_of (callback (startGroupOperation w))))
           ++ e :: entries) [].
Proof.
  unfold groupOperations.
  destruct (callback (startGroupOperation w)) as [[] w1|w1]; cbn;
    (split_and!; [done..|]); intros e entries Hbuf;
    unfold endGroupOperation; by rewrite Hbuf.
Qed.

(** X9: [clear] empties both stacks and nothing else: the atoms keep
    their values, the registry and an open group's buffer are as before.
    After it there is nothing to undo or redo, and undo and redo change
    nothing. *)
Theorem clear_leaves_nothing_to_undo (w : World) :
  ∃ w', clear w = Return () w'
        ∧ historyStackAtom w' = mkStack [] []
        ∧ canUndo w' = false ∧ canRedo w' = false
        ∧ undo w' = Return () w' ∧ redo w' = Return () w'
        ∧ baseAtoms w' = baseAtoms w
        ∧ atomRegistry w' = atomRegistry w
        ∧ currentGroupOperationAtom w' = currentGroupOperationAtom w.
Proof. eexists. split; [reflexivity|]. by destruct w. Qed.

End HistoryStack.

(** * Further properties of atoms, undo and redo *)
Section Atoms.

(** X10: the registry is a map from id to atom.  Registering makes the
    atom the one found under its id, replacing an atom registered there
    before; unregistering removes whatever is registered under the atom's
    id, also when that is another atom; other ids, the stacks and the
    values of the atoms are not touched. *)
Theorem registry_is_keyed_by_id (a b : AtomWithHistory) (key : string)
    (w : World) :
  getAtomById (atom_id a) (registerHistoryAtom a w) = Some a
  ∧ getAtomById (atom_id a) (unregisterHistoryAtom a w) = None
  ∧ (atom_id a = atom_id b →
     getAtomById (atom_id a) (registerHistoryAtom b (registerHistoryAtom a w))
     = Some b
     ∧ getAtomById (atom_id b)
         (unregisterHistoryAtom a (registerHistoryAtom b w)) = None)
  ∧ (key ≠ atom_id a →
     getAtomById key (registerHistoryAtom a w) = getAtomById key w
     ∧ getAtomById key (unregisterHistoryAtom a w) = getAtomById key w)
  ∧ historyStackAtom (unregisterHistoryAtom a w) = historyStackAtom w
  ∧ baseAtoms (unregisterHistoryAtom a w) = baseAtoms w.
Proof.
  unfold getAtomById, registerHistoryAtom, unregisterHistoryAtom. cbn.
  split_and!; try done.
  - apply lookup_insert_eq.
  - apply lookup_delete_eq.
  - intros ->. split; [apply lookup_insert_eq|apply lookup_delete_eq].
  - intros Hne. split; [by apply lookup_insert_ne|by apply lookup_delete_ne].
Qed.

Lemma registry_is_keyed_by_id_witness :
  getAtomById "b" (registerHistoryAtom atomA three_atoms) = Some atomB
  ∧ getAtomById "b" (unregisterHistoryAtom atomA three_atoms) = Some atomB.
Proof.
  apply (registry_is_keyed_by_id atomA atomB "b" three_atoms). done.
Defined.

Lemma pushToHistory_frame key prev next options w :
  let w' := world_of (pushToHistory key prev next options w) in
  baseAtoms w' = baseAtoms w ∧ atomRegistry w' = atomRegistry w
  ∧ runtime w' = runtime w ∧ clock w' = clock w.
Proof.
  unfold pushToHistory. destruct (compute_entryData _ _ _); [|done..]. cbn.
  by destruct (currentGroupOperationAtom w).
Qed.

Lemma setAtomValue_frame a update w :
  atomRegistry (world_of (setAtomValue a update w)) = atomRegistry w
  ∧ clock (world_of (setAtomValue a update w)) = clock w
  ∧ runtime (world_of (setAtomValue a update w)) = runtime w
  ∧ ∀ b, b ≠ baseAtom a →
         baseAtoms (world_of (setAtomValue a update w)) !! b
         = baseAtoms w !! b.
Proof.
  unfold setAtomValue.
  destruct (effective_shouldTrack a _ _) as [[|]|]; [|done..].
  destruct (isHistoryOperationInProgressAtom w); cbn.
  - split_and!; [done..|]. intros b Hb. by rewrite lookup_insert_ne.
  - pose proof (pushToHistory_frame (atom_id a) (getAtomValue a w) update
      (mkOptions (historyLimit a) (useFullValueInstead a) (customDiff a)) w)
      as (Hcells & Hreg & Hrt & Hnow).
    destruct (pushToHistory _ _ _ _ _) as [[] w'|w']; cbn in *;
      (split_and!; [done..|]); intros b Hb;
      rewrite ?lookup_insert_ne by done; by rewrite Hcells.
Qed.

(** X11: a write through the atom either lands or changes nothing.  When
    [shouldTrack] says yes and nothing throws, the atom reads as the new
    value afterwards; when it says no, the write is dropped and the atom
    keeps its value; when [shouldTrack] or the custom diff throws, the
    store is as before.  No other atom's value and no registration
    changes. *)
Theorem write_lands_or_changes_nothing (a : AtomWithHistory)
    (update : value) (w : World) :
  match setAtomValue a update w with
  | Return _ w' =>
      (effective_shouldTrack a (getAtomValue a w) update = Some true
       ∧ getAtomValue a w' = update)
      ∨ (effective_shouldTrack a (getAtomValue a w) update = Some false
         ∧ w' = w)
  | Throw w' => w' = w
  end
  ∧ atomRegistry (world_of (setAtomValue a update w)) = atomRegistry w
  ∧ ∀ b, b ≠ baseAtom a →
         baseAtoms (world_of (setAtomValue a update w)) !! b
         = baseAtoms w !! b.
Proof.
  split; [|by destruct (setAtomValue_frame a update w) as (? & _ & _ & ?)].
  unfold setAtomValue.
  destruct (effective_shouldTrack a _ _) as [[|]|] eqn:Et; [|by auto..].
  assert (∀ w0, getAtomValue a
            (set_baseAtoms (<[baseAtom a:=update]> (baseAtoms w0)) w0)
          = update) as Hread.
  { intros w0. unfold getAtomValue. cbn. by rewrite lookup_insert_eq. }
  destruct (isHistoryOperationInProgressAtom w); cbn [negb];
    [left; split; [done|apply Hread]|].
  unfold pushToHistory. destruct (compute_entryData _ _ _);
    [|left; split; [done|apply Hread]|done]. cbn.
  destruct (currentGroupOperationAtom w); left; (split; [done|apply Hread]).
Qed.

End Atoms.

Section UndoRedo.

(** X12: undo and redo only move the boundary between [past] and
    [future].  The timeline, [past] followed by [future] read backwards,
    keeps the id, diff and full value of every entry in the same order,
    whether the call restores a value, gives up or throws. *)
Theorem undo_redo_keep_the_timeline (w : World) :
  timeline (historyStackAtom (world_of (undo w)))
  = timeline (historyStackAtom w)
  ∧ timeline (historyStackAtom (world_of (redo w)))
    = timeline (historyStackAtom w).
Proof.
  split.
  - unfold undo, setHistoryStack, undo_updater.
    destruct (last _) as [e|] eqn:El; [|done].
    destruct (getAtomById _ _) as [a|]; [|done].
    set (w1 := set_isHistoryOperation true w).
    pose proof (previous_value_frame e (getAtomValue a w1) w1) as (Hs & _ & Hf).
    destruct (previous_value _ _ _) as [[v|] w2]; cbn [snd] in *; [|done].
    pose proof (setAtomValue_suppressed a v w2 Hf) as (Hs' & _ & _).
    destruct (setAtomValue a v w2) as [[] w3|w3]; cbn in *.
    + unfold timeline. cbn. rewrite rev_app_distr. cbn.
      rewrite <- (removelast_then_last _ _ El) at 2.
      by rewrite <- app_assoc, !map_app.
    + by rewrite Hs', Hs.
  - unfold redo, setHistoryStack, redo_updater.
    destruct (last _) as [e|] eqn:El; [|done].
    destruct (getAtomById _ _) as [a|]; [|done].
    set (w1 := set_isHistoryOperation true w).
    pose proof (next_value_frame e (getAtomValue a w1) w1) as (Hs & _ & Hf).
    destruct (next_value _ _ _) as [[v|] w2]; cbn [snd] in *; [|done].
    pose proof (setAtomValue_suppressed a v w2 Hf) as (Hs' & _ & _).
    destruct (setAtomValue a v w2) as [[] w3|w3]; cbn in *.
    + unfold timeline. cbn.
      rewrite <- (removelast_then_last _ _ El) at 2.
      rewrite rev_app_distr. cbn. by rewrite <- app_assoc, !map_app.
    + by rewrite Hs', Hs.
Qed.

End UndoRedo.

Section UndoRedoCells.

Lemma previous_value_cells e v w :
  baseAtoms (previous_value e v w).2 = baseAtoms w
  ∧ atomRegistry (previous_value e v w).2 = atomRegistry w.
Proof.
  unfold previous_value. destruct (is_defined _); [done|].
  destruct (diff e); [|done]. by destruct (applyDiff _ _ _).
Qed.

Lemma next_value_cells e v w :
  baseAtoms (next_value e v w).2 = baseAtoms w
  ∧ atomRegistry (next_value e v w).2 = atomRegistry w.
Proof.
  unfold next_value. destruct (is_defined _); [done|].
  destruct (diff e) as [d|x]; [by destruct (applyDiff _ _ _)|].
  by destruct (has_type x).
Qed.

Lemma undo_cells w :
  atomRegistry (world_of (undo w)) = atomRegistry w
  ∧ ∀ b,
      (∀ e a, last (past (historyStackAtom w)) = Some e →
              getAtomById (id e) w = Some a → baseAtom a ≠ b) →
      baseAtoms (world_of (undo w)) !! b = baseAtoms w !! b.
Proof.
  unfold undo, setHistoryStack, undo_updater.
  destruct (last (past _)) as [e|] eqn:El; [|done].
  destruct (getAtomById _ _) as [a|] eqn:Ea; [|done].
  set (w1 := set_isHistoryOperation true w).
  pose proof (previous_value_cells e (getAtomValue a w1) w1) as [Hc Hr].
  destruct (previous_value _ _ _) as [[v|] w2]; cbn [snd] in *;
    [|cbn; by rewrite Hc, Hr].
  destruct (setAtomValue_frame a v w2) as (Hr' & _ & _ & Hc').
  destruct (setAtomValue a v w2) as [[] w3|w3]; cbn in *;
    (split; [by rewrite Hr', Hr|]); intros b Hother;
    (rewrite Hc', Hc; [done|]); intros ->; by eapply Hother.
Qed.

Lemma redo_cells w :
  atomRegistry (world_of (redo w)) = atomRegistry w
  ∧ ∀ b,
      (∀ e a, last (future (historyStackAtom w)) = Some e →
              getAtomById (id e) w = Some a → baseAtom a ≠ b) →
      baseAtoms (world_of (redo w)) !! b = baseAtoms w !! b.
Proof.
  unfold redo, setHistoryStack, redo_updater.
  destruct (last (future _)) as [e|] eqn:El; [|done].
  destruct (getAtomById _ _) as [a|] eqn:Ea; [|done].
  set (w1 := set_isHistoryOperation true w).
  pose proof (next_value_cells e (getAtomValue a w1) w1) as [Hc Hr].
  destruct (next_value _ _ _) as [[v|] w2]; cbn [snd] in *;
    [|cbn; by rewrite Hc, Hr].
  destruct (setAtomValue_frame a v w2) as (Hr' & _ & _ & Hc').
  destruct (setAtomValue a v w2) as [[] w3|w3]; cbn in *;
    (split; [by rewrite Hr', Hr|]); intros b Hother;
    (rewrite Hc', Hc; [done|]); intros ->; by eapply Hother.
Qed.

(** X13: undo and redo write at most one atom.  Undo leaves the value of
    every atom other than the one registered under the id of the last
    entry of [past] as it was, the atom the next redo would write
    included; redo does the same with the last entry of [future].
    Neither changes the registry. *)
Theorem undo_redo_write_one_atom (w : World) :
  (∀ b,
     (∀ e a, last (past (historyStackAtom w)) = Some e →
             getAtomById (id e) w = Some a → baseAtom a ≠ b) →
     baseAtoms (world_of (undo w)) !! b = baseAtoms w !! b)
  ∧ atomRegistry (world_of (undo w)) = atomRegistry w
  ∧ (∀ b,
       (∀ e a, last (future (historyStackAtom w)) = Some e →
               getAtomById (id e) w = Some a → baseAtom a ≠ b) →
       baseAtoms (world_of (redo w)) !! b = baseAtoms w !! b)
  ∧ atomRegistry (world_of (redo w)) = atomRegistry w.
Proof.
  destruct (undo_cells w) as [Hru Hcu]. destruct (redo_cells w) as [Hrr Hcr].
  by split_and!.
Qed.

(** After the group of three and one undo, [past] ends with the entry of
    [b] and [future] with the entry of [c].  A second undo leaves the
    value of [c] alone, and a redo leaves the value of [b] alone. *)
Lemma undo_redo_write_one_atom_witness :
  baseAtoms (world_of (undo (world_of (undo after_group)))) !! 2
  = Some (VNum 0)
  ∧ baseAtoms (world_of (redo (world_of (undo after_group)))) !! 1
    = Some (VNum 1).
Proof.
  destruct (undo_redo_write_one_atom (world_of (undo after_group)))
    as (Hundo & _ & Hredo & _).
  split.
  - rewrite (Hundo 2); [reflexivity|].
    intros e a He Ha. vm_compute in He. injection He as <-.
    vm_compute in Ha. injection Ha as <-. done.
  - rewrite (Hredo 1); [reflexivity|].
    intros e a He Ha. vm_compute in He. injection He as <-.
    vm_compute in Ha. injection Ha as <-. done.
Defined.

End UndoRedoCells.

Section RoundTrips.

(** What a recorded write outside a group leaves behind. *)
Lemma setAtomValue_records a v w d full :
  isHistoryOperationInProgressAtom w = false →
  currentGroupOperationAtom w = None →
  effective_shouldTrack a (getAtomValue a w) v = Some true →
  compute_entryData (getAtomValue a w) v
    (mkOptions (historyLimit a) (useFullValueInstead a) (customDiff a))
  = Record_entry d full →
  ∃ p, setAtomValue a v w
       = Return ()
           (set_baseAtoms (<[baseAtom a := v]> (baseAtoms w))
              (set_historyStack (mkStack p []) (Date_now w).2))
       ∧ (keeps_last a = true ∨ past (historyStackAtom w) ≠ [] →
          last p = Some (mkEntry (atom_id a) d (now w) full))
       ∧ (keeps_last a = false → past (historyStackAtom w) = [] → p = []).
Proof.
  intros Hf Hg Ht Hd. eexists. split; [unfold setAtomValue|].
  { rewrite Ht, Hf. cbn [negb].
    rewrite (pushToHistory_records _ _ _ _ _ d full) by done. reflexivity. }
  unfold keeps_last. split.
  - intros Hok. apply last_after_shift. intros Hev Hnil.
    destruct Hok as [Hone|Hne]; [|done].
    rewrite Hnil in Hev. cbn in Hev. rewrite Hev in Hone. done.
  - intros Hone%negb_false_iff ->. cbn. by rewrite Hone.
Qed.

(** X14: write, undo, redo.  For an atom with the default options whose
    change is recorded as a value diff (the two values are not both
    arrays or both objects), undo puts the previous value back and redo
    the new one.  After the redo [future] is empty again and [past] holds
    the entries it held after the write, the last one stamped anew: the
    entry carries the time of the write, then of the undo, then of the
    redo. *)
Theorem write_undo_redo (a : AtomWithHistory) (v : value) (w : World) :
  getAtomById (atom_id a) w = Some a →
  isHistoryOperationInProgressAtom w = false →
  currentGroupOperationAtom w = None →
  shouldTrack a = None → customDiff a = None →
  useFullValueInstead a = false → historyLimit a = None →
  createDiff (getAtomValue a w) v = Some (ValueDiff (getAtomValue a w) v) →
  ∃ w1 w2 w3,
    setAtomValue a v w = Return () w1
    ∧ undo w1 = Return () w2
    ∧ redo w2 = Return () w3
    ∧ getAtomValue a w1 = v
    ∧ getAtomValue a w2 = getAtomValue a w
    ∧ canRedo w2 = true
    ∧ getAtomValue a w3 = v
    ∧ map entry_content (past (historyStackAtom w3))
      = map entry_content (past (historyStackAtom w1))
    ∧ future (historyStackAtom w3) = []
    ∧ timestamp <$> last (past (historyStackAtom w1)) = Some (now w)
    ∧ timestamp <$> last (future (historyStackAtom w2)) = Some (now w1)
    ∧ timestamp <$> last (past (historyStackAtom w3)) = Some (now w2).
Proof.
  intros Hreg Hf Hg Hst Hcd Hfull Hlimit Hdiff.
  unfold getAtomById in Hreg.
  destruct w as [stack flag grp ingrp reg cells clk reads rt].
  cbn in Hreg, Hf, Hg. subst flag grp.
  set (w := mkWorld stack false None ingrp reg cells clk reads rt) in *.
  set (prev := getAtomValue a w) in *.
  assert (strict_eq prev v = false) as Hne.
  { rewrite createDiff_unfold in Hdiff. by destruct (strict_eq prev v). }
  assert (strict_eq v prev = false) as Hne' by (by rewrite strict_eq_sym).
  assert (∀ x y, effective_shouldTrack a x y = Some (negb (strict_eq x y)))
    as Htrack by (intros; unfold effective_shouldTrack; by rewrite Hst).
  destruct (setAtomValue_records a v w (Structural (ValueDiff prev v)) VUndefined)
    as (p & Hw1 & Hlast & _);
    [done|done|by rewrite Htrack; fold prev; rewrite Hne| |].
  { unfold compute_entryData. cbn. rewrite Hfull, Hcd. fold prev. by rewrite Hdiff. }
  assert (keeps_last a = true) as Hkeep
    by (unfold keeps_last, effective_limit; cbn; by rewrite Hlimit).
  specialize (Hlast (or_introl Hkeep)).
  eexists _, _, _. split; [exact Hw1|]. subst w. cbn in Hlast.
  assert (∀ x y cells' fl n, getAtomValue a
            (mkWorld x fl None ingrp reg (<[baseAtom a:=y]> cells') clk n rt) = y)
    as Hread.
  { intros. unfold getAtomValue. cbn. by rewrite lookup_insert_eq. }
  split.
  { unfold undo, setHistoryStack, undo_updater. cbn. rewrite Hlast. cbn.
    unfold getAtomById. cbn. rewrite Hreg. cbn.
    unfold previous_value. cbn. unfold set_runtime. cbn.
    unfold setAtomValue. rewrite Hread, Htrack, Hne'. cbn. reflexivity. }
  split.
  { unfold redo, setHistoryStack, redo_updater. cbn.
    unfold getAtomById. cbn. rewrite Hreg. cbn.
    unfold next_value. cbn. unfold set_runtime. cbn.
    unfold setAtomValue. rewrite Hread, Htrack, Hne. cbn. reflexivity. }
  cbn. rewrite last_snoc, Hlast.
  split_and!; try apply Hread; try done.
  rewrite <- (removelast_then_last _ _ Hlast) at 2.
  by rewrite !map_app.
Qed.

(** The counter [a] goes from 0 to 1, back and forth. *)
Lemma write_undo_redo_witness :
  ∃ w1 w2 w3,
    setAtomValue atomA (VNum 1) three_atoms = Return () w1
    ∧ undo w1 = Return () w2
    ∧ redo w2 = Return () w3
    ∧ getAtomValue atomA w1 = VNum 1
    ∧ getAtomValue atomA w2 = VNum 0
    ∧ canRedo w2 = true
    ∧ getAtomValue atomA w3 = VNum 1
    ∧ map entry_content (past (historyStackAtom w3))
      = map entry_content (past (historyStackAtom w1))
    ∧ future (historyStackAtom w3) = []
    ∧ timestamp <$> last (past (historyStackAtom w1)) = Some 1000%Z
    ∧ timestamp <$> last (future (historyStackAtom w2)) = Some (now w1)
    ∧ timestamp <$> last (past (historyStackAtom w3)) = Some (now w2).
Proof.
  apply (write_undo_redo atomA (VNum 1) three_atoms); reflexivity.
Defined.

(** X15: an entry that carries a full value is not redone.  For an atom
    with [useFullValueInstead] and no [historyLimit], whose value is not
    [undefined], undo puts the previous value back; redo then takes the
    same full value, which is the previous value again, yet moves the
    entry back to [past]: the atom keeps the previous value, there is
    nothing left to redo, and [past] holds the entries it held after the
    write. *)
Theorem full_value_is_not_redone (a : AtomWithHistory) (v : value)
    (w : World) :
  getAtomById (atom_id a) w = Some a →
  isHistoryOperationInProgressAtom w = false →
  currentGroupOperationAtom w = None →
  shouldTrack a = None →
  useFullValueInstead a = true → historyLimit a = None →
  is_defined (getAtomValue a w) = true →
  strict_eq (getAtomValue a w) v = false →
  ∃ w1 w2 w3,
    setAtomValue a v w = Return () w1
    ∧ undo w1 = Return () w2
    ∧ redo w2 = Return () w3
    ∧ getAtomValue a w1 = v
    ∧ getAtomValue a w2 = getAtomValue a w
    ∧ getAtomValue a w3 = getAtomValue a w
    ∧ canRedo w3 = false
    ∧ map entry_content (past (historyStackAtom w3))
      = map entry_content (past (historyStackAtom w1)).
Proof.
  intros Hreg Hf Hg Hst Hfull Hlimit Hdef Hne.
  unfold getAtomById in Hreg.
  destruct w as [stack flag grp ingrp reg cells clk reads rt].
  cbn in Hreg, Hf, Hg. subst flag grp.
  set (w := mkWorld stack false None ingrp reg cells clk reads rt) in *.
  set (prev := getAtomValue a w) in *.
  assert (strict_eq v prev = false) as Hne' by (by rewrite strict_eq_sym).
  assert (∀ x y, effective_shouldTrack a x y = Some (negb (strict_eq x y)))
    as Htrack by (intros; unfold effective_shouldTrack; by rewrite Hst).
  destruct (setAtomValue_records a v w (Opaque prev) prev)
    as (p & Hw1 & Hlast & _);
    [done|done|by rewrite Htrack; fold prev; rewrite Hne| |].
  { unfold compute_entryData. cbn. by rewrite Hfull. }
  assert (keeps_last a = true) as Hkeep
    by (unfold keeps_last, effective_limit; cbn; by rewrite Hlimit).
  specialize (Hlast (or_introl Hkeep)).
  subst w. cbn in Hlast.
  assert (∀ x y cells' fl n, getAtomValue a
            (mkWorld x fl None ingrp reg (<[baseAtom a:=y]> cells') clk n rt) = y)
    as Hread.
  { intros. unfold getAtomValue. cbn. by rewrite lookup_insert_eq. }
  set (w1 := set_baseAtoms _ _) in Hw1.
  assert (∃ w2, undo w1 = Return () w2
                ∧ historyStackAtom w2
                  = mkStack (removelast p)
                      [mkEntry (atom_id a) (Opaque prev) (now w1) prev]
                ∧ getAtomValue a w2 = prev
                ∧ atomRegistry w2 = reg
                ∧ isHistoryOperationInProgressAtom w2 = false) as (w2 & Hw2 & Hs2 & Hv2 & Hr2 & Hf2).
  { eexists. split.
    { subst w1. unfold undo, setHistoryStack, undo_updater. cbn. rewrite Hlast. cbn.
      unfold getAtomById. cbn. rewrite Hreg. cbn.
      unfold previous_value. cbn. rewrite Hdef.
      unfold set_isHistoryOperation, set_baseAtoms, set_historyStack. cbn.
      unfold setAtomValue. rewrite Hread, Htrack, Hne'. cbn. reflexivity. }
    cbn. split_and!; try done; try apply Hread. }
  exists w1, w2.
  assert (∃ w3, redo w2 = Return () w3
                ∧ historyStackAtom w3
                  = mkStack (removelast p
                             ++ [mkEntry (atom_id a) (Opaque prev) (now w2) prev])
                            []
                ∧ getAtomValue a w3 = prev) as (w3 & Hw3 & Hs3 & Hv3).
  { unfold redo, setHistoryStack, redo_updater. rewrite Hs2. cbn.
    unfold getAtomById. rewrite Hr2, Hreg. cbn.
    unfold next_value. cbn. rewrite Hdef.
    assert (∀ w', isHistoryOperationInProgressAtom w' = true →
                  getAtomValue a w' = prev →
                  ∃ w'', setAtomValue a prev w' = Return () w''
                         ∧ getAtomValue a w'' = prev
                         ∧ clock w'' = clock w'
                         ∧ clock_reads w'' = clock_reads w') as Hset.
    { intros w' Hfl Hval. unfold setAtomValue. rewrite Htrack, Hval, Hfl.
      destruct (strict_eq prev prev); cbn; eexists; (split; [done|]);
        [split_and!; [done..]|].
      split_and!; [|done..]. unfold getAtomValue. cbn.
      by rewrite lookup_insert_eq. }
    destruct (Hset (set_isHistoryOperation true w2)) as (w'' & -> & Hv'' & Hc'' & Hn'');
      [done|by rewrite <- Hv2|].
    cbn. eexists. split; [reflexivity|]. cbn. split.
    - unfold now. cbn. by rewrite Hc'', Hn''.
    - unfold getAtomValue in *. cbn. done. }
  exists w3. split_and!; try done.
  - subst w1. apply Hread.
  - unfold canRedo. by rewrite Hs3.
  - rewrite Hs3. subst w1. cbn.
    rewrite <- (removelast_then_last _ _ Hlast) at 2.
    by rewrite !map_app.
Qed.

(** The atom [full] goes from 0 to 1, is undone, and stays at 0. *)
Lemma full_value_is_not_redone_witness :
  ∃ w1 w2 w3,
    setAtomValue full_value_atom (VNum 1) five_atoms = Return () w1
    ∧ undo w1 = Return () w2
    ∧ redo w2 = Return () w3
    ∧ getAtomValue full_value_atom w1 = VNum 1
    ∧ getAtomValue full_value_atom w2 = VNum 0
    ∧ getAtomValue full_value_atom w3 = VNum 0
    ∧ canRedo w3 = false
    ∧ map entry_content (past (historyStackAtom w3))
      = map entry_content (past (historyStackAtom w1)).
Proof.
  apply (full_value_is_not_redone full_value_atom (VNum 1) five_atoms);
    reflexivity.
Defined.

(** X16: a change recorded through a custom diff is never undone.  When
    the custom diff returns something that is not one of the three diff
    shapes, the entry carries no full value; undo logs two errors and
    gives up, so the atom keeps the new value and the entry stays last
    on [past].  (With a limit below 1 on an empty [past] the write has
    kept no entry, and undo finds nothing to do.) *)
Theorem custom_diff_is_never_undone (a : AtomWithHistory) (v x : value)
    (f : value → value → option diff_field) (w : World) :
  getAtomById (atom_id a) w = Some a →
  isHistoryOperationInProgressAtom w = false →
  currentGroupOperationAtom w = None →
  customDiff a = Some f →
  useFullValueInstead a = false →
  effective_shouldTrack a (getAtomValue a w) v = Some true →
  f (getAtomValue a w) v = Some (Opaque x) →
  ∃ w1 w2,
    setAtomValue a v w = Return () w1
    ∧ undo w1 = Return () w2
    ∧ getAtomValue a w2 = v
    ∧ historyStackAtom w2 = historyStackAtom w1
    ∧ isHistoryOperationInProgressAtom w2 = false
    ∧ (keeps_last a = true ∨ past (historyStackAtom w) ≠ [] →
       canUndo w2 = true
       ∧ Runtime.console (runtime w2)
         = Runtime.console (runtime w)
           ++ [Runtime.Error error_applying_undo; Runtime.Error cannot_undo])
    ∧ (keeps_last a = false → past (historyStackAtom w) = [] →
       canUndo w2 = false
       ∧ Runtime.console (runtime w2) = Runtime.console (runtime w)).
Proof.
  intros Hreg Hf Hg Hcd Hfull Htrack Hopaque.
  unfold getAtomById in Hreg.
  destruct w as [stack flag grp ingrp reg cells clk reads rt].
  cbn in Hreg, Hf, Hg. subst flag grp.
  set (w := mkWorld stack false None ingrp reg cells clk reads rt) in *.
  destruct (setAtomValue_records a v w (Opaque x) VUndefined)
    as (p & Hw1 & Hlast & Hlost); [done|done|done| |].
  { unfold compute_entryData. cbn. by rewrite Hfull, Hcd, Hopaque. }
  subst w. cbn in Hlast, Hlost.
  assert (keeps_last a = true ∨ stack.(past) ≠ []
          ∨ (keeps_last a = false ∧ stack.(past) = [])) as [Hk|[Hk|[Hk Hnil]]].
  { destruct (keeps_last a); [by left|]. destruct (past stack); [|by auto].
    right. right. done. }
  all: eexists _, _; (split; [exact Hw1|]).
  - specialize (Hlast (or_introl Hk)). split.
    { unfold undo, setHistoryStack, undo_updater. cbn. rewrite Hlast. cbn.
      unfold getAtomById. cbn. rewrite Hreg. cbn. reflexivity. }
    cbn. split_and!; try done.
    + unfold getAtomValue. cbn. by rewrite lookup_insert_eq.
    + intros _. split; [|by rewrite <- app_assoc].
      unfold canUndo. cbn. apply bool_decide_eq_true.
      destruct p; [done|cbn; lia].
    + intros Hk'. congruence.
  - specialize (Hlast (or_intror Hk)). split.
    { unfold undo, setHistoryStack, undo_updater. cbn. rewrite Hlast. cbn.
      unfold getAtomById. cbn. rewrite Hreg. cbn. reflexivity. }
    cbn. split_and!; try done.
    + unfold getAtomValue. cbn. by rewrite lookup_insert_eq.
    + intros _. split; [|by rewrite <- app_assoc].
      unfold canUndo. cbn. apply bool_decide_eq_true.
      destruct p; [done|cbn; lia].
  - rewrite (Hlost Hk Hnil). split; [reflexivity|].
    cbn. split_and!; try done.
    + unfold getAtomValue. cbn. by rewrite lookup_insert_eq.
    + intros [Hk'|Hne]; [congruence|done].
Qed.

(** The atom [custom] records its new value as the diff. *)
Lemma custom_diff_is_never_undone_witness :
  ∃ w1 w2,
    setAtomValue custom_atom (VNum 1) five_atoms = Return () w1
    ∧ undo w1 = Return () w2
    ∧ getAtomValue custom_atom w2 = VNum 1
    ∧ historyStackAtom w2 = historyStackAtom w1
    ∧ canUndo w2 = true
    ∧ isHistoryOperationInProgressAtom w2 = false
    ∧ Runtime.console (runtime w2)
      = [Runtime.Error error_applying_undo; Runtime.Error cannot_undo].
Proof.
  destruct (custom_diff_is_never_undone custom_atom (VNum 1) (VNum 1)
              (fun _ next => Some (Opaque next)) five_atoms)
    as (w1 & w2 & Hw1 & Hw2 & Hv & Hs & Hf & Hkept & _); [reflexivity..|].
  destruct Hkept as [Hcan Hlog]; [by left|].
  exists w1, w2. by split_and!.
Defined.

End RoundTrips.

Section Edges.

(** X17: unregistering an atom leaves its entries on the stacks, and they
    block the history: an undo whose entry names the unregistered atom
    changes nothing and there is still something to undo afterwards, and
    the same holds for redo. *)
Theorem unregistered_atom_blocks_history (a : AtomWithHistory)
    (e : HistoryEntry) (w : World) :
  id e = atom_id a →
  (last (past (historyStackAtom w)) = Some e →
   undo (unregisterHistoryAtom a w) = Return () (unregisterHistoryAtom a w)
   ∧ canUndo (unregisterHistoryAtom a w) = true)
  ∧ (last (future (historyStackAtom w)) = Some e →
     redo (unregisterHistoryAtom a w) = Return () (unregisterHistoryAtom a w)
     ∧ canRedo (unregisterHistoryAtom a w) = true).
Proof.
  intros Hid. split; intros Hlast.
  - split.
    + unfold undo, setHistoryStack, undo_updater. cbn. rewrite Hlast.
      unfold getAtomById. cbn. rewrite Hid, lookup_delete_eq. by destruct w.
    + unfold canUndo. cbn. apply bool_decide_eq_true.
      destruct (past (historyStackAtom w)); [done|cbn; lia].
  - split.
    + unfold redo, setHistoryStack, redo_updater. cbn. rewrite Hlast.
      unfold getAtomById. cbn. rewrite Hid, lookup_delete_eq. by destruct w.
    + unfold canRedo. cbn. apply bool_decide_eq_true.
      destruct (future (historyStackAtom w)); [done|cbn; lia].
Qed.

(** After the group of three, [c] is unregistered. *)
Lemma unregistered_atom_blocks_history_witness :
  undo (unregisterHistoryAtom atomC after_group)
  = Return () (unregisterHistoryAtom atomC after_group)
  ∧ canUndo (unregisterHistoryAtom atomC after_group) = true.
Proof.
  refine (proj1 (unregistered_atom_blocks_history atomC
            (mkEntry "c" (Structural (ValueDiff (VNum 0) (VNum 1))) 1002
                     VUndefined) after_group _) _); reflexivity.
Defined.

(** X18: a value compared with itself gives no diff, except [NaN], which
    is not [===] to itself and is recorded as a change from [NaN] to
    [NaN].  So an atom with the default options drops a write of the
    value it already holds, unless that value is [NaN]. *)
Theorem same_value_is_no_change (a : AtomWithHistory) (v : value)
    (w : World) :
  createDiff v v
  = (if strict_eq v v then None else Some (ValueDiff VNaN VNaN))
  ∧ (strict_eq v v = false ↔ v = VNaN)
  ∧ (shouldTrack a = None → getAtomValue a w = v → strict_eq v v = true →
     setAtomValue a v w = Return () w).
Proof.
  split_and!.
  - rewrite createDiff_unfold. destruct v; cbn; try done;
      by rewrite bool_decide_eq_true_2.
  - destruct v; cbn; split; try done; by rewrite bool_decide_eq_true_2.
  - intros Hst Hv Hrefl. unfold setAtomValue, effective_shouldTrack.
    by rewrite Hst, Hv, Hrefl.
Qed.

(** The counter [a] holds 0 and is written 0. *)
Lemma same_value_is_no_change_witness :
  setAtomValue atomA (VNum 0) three_atoms = Return () three_atoms.
Proof.
  refine (proj2 (proj2 (same_value_is_no_change atomA (VNum 0) three_atoms))
            _ _ _); reflexivity.
Defined.

End Edges.
